(** * The Document class of [src/document.js], embedded in Rocq

    A [Document] is a JavaScript object whose enumerable own properties
    are accessors installed from a [Schema].  The embedding keeps the
    object as the ordered list of its enumerable own properties (the
    order in which [Object.keys] and [for ... in] enumerate them), keeps
    the closed-over [data] variable of every accessor next to the
    accessor, and threads the object explicitly through every method.

    Thrown JavaScript errors are results of type [outcome]; the two
    recursions of the class (construction of nested documents, and the
    validation and serialisation of nested values) are bounded by a
    [fuel] argument whose exhaustion is the separate result
    [OutOfFuel].

    The two imported collaborators ([cast] of typeable, the [Validator]
    of validatable) and the functions a schema may carry (custom
    [get]/[set] hooks, default-value producers) are given by the class
    [Runtime]; hooks and producers are pure there: they read the
    document they receive, they do not mutate it.

    Property names are assumed distinct from the names of the methods of
    the class (methods of a class are not enumerable, so [for ... in]
    over a document meets own properties only), and not to be array
    indices, which JavaScript enumerates first; the two non-enumerable
    internal properties [_schema] and [_validator] are modelled as
    reserved names.  Methods return the document they leave behind: the
    values they return in the source ([this], [this[name]]) are not used
    by the class itself. *)

From Stdlib Require Import List String ZArith Bool Arith Lia.
From Stdlib Require Import FunctionalExtensionality.
Import ListNotations.
Local Open Scope string_scope.
Local Open Scope list_scope.

(** ** Results of a call *)

Inductive js_error : Type :=
| JsError (msg : string)        (* [new Error(msg)] *)
| JsTypeError (msg : string).   (* a [TypeError] raised by the engine *)

Inductive outcome (A : Type) : Type :=
| Ok (a : A)
| Throw (e : js_error)
| OutOfFuel.

Arguments Ok {A} a.
Arguments Throw {A} e.
Arguments OutOfFuel {A}.

Definition bind {A B : Type} (m : outcome A) (k : A -> outcome B) : outcome B :=
  match m with
  | Ok a => k a
  | Throw e => Throw e
  | OutOfFuel => OutOfFuel
  end.

Notation "x <- m ;; k" := (bind m (fun x => k))
  (at level 61, m at next level, right associativity).

Fixpoint mapM {A B : Type} (f : A -> outcome B) (l : list A) : outcome (list B) :=
  match l with
  | [] => Ok []
  | x :: l' => y <- f x ;; ys <- mapM f l' ;; Ok (y :: ys)
  end.

(** [for (x of l) acc = body(acc, x)], stopping at the first throw. *)
Fixpoint foldM {A S : Type} (body : S -> A -> outcome S) (l : list A) (acc : S)
  : outcome S :=
  match l with
  | [] => Ok acc
  | x :: l' => acc' <- body acc x ;; foldM body l' acc'
  end.

(** ** Objects as ordered association lists *)

Section Assoc.
Context {A : Type}.

Fixpoint lookup (k : string) (l : list (string * A)) : option A :=
  match l with
  | [] => None
  | (k', a) :: l' => if String.eqb k k' then Some a else lookup k l'
  end.

(** [o[k] = a]: an existing key keeps its place, a new key goes last. *)
Fixpoint set_entry (k : string) (a : A) (l : list (string * A)) : list (string * A) :=
  match l with
  | [] => [(k, a)]
  | (k', a') :: l' =>
      if String.eqb k k' then (k, a) :: l' else (k', a') :: set_entry k a l'
  end.

(** [delete o[k]] *)
Definition remove_key (k : string) (l : list (string * A)) : list (string * A) :=
  filter (fun e => negb (String.eqb k (fst e))) l.

Definition keys (l : list (string * A)) : list string := map fst l.
End Assoc.

(** ** Data model *)

Definition hook := string.       (* name of a custom [get] / [set] function *)
Definition producer := string.   (* name of a [defaultValue] function *)
Definition rule := string.       (* one declared validation rule *)

#[warnings="-register-all"]
Inductive value : Type :=
| VUndefined
| VNull
| VBool (b : bool)
| VNum (n : Z)
| VStr (s : string)
| VArr (items : list value)
| VObj (entries : list (string * value))   (* plain object, [constructor === Object] *)
| VDoc (d : document)
with document : Type :=
| Doc (_schema : schema) (props : list (string * property))
with property : Type :=
| PAccessor (definition : definition) (data : value)  (* installed by [defineField] *)
| PData (v : value)                                   (* created by a plain assignment *)
with schema : Type :=
| MkSchema (fields : list (string * definition)) (mode : string)
with definition : Type :=
| MkDef (type : ftype) (defaultValue : default)
        (get set : option hook) (validations : list rule)
with ftype : Type :=
| TUndefined                 (* no [type] declared *)
| TScalar (tag : string)     (* 'String', 'Integer', ... *)
| TArray (elem : ftype)      (* [T], with [type[0] = T] *)
| TSchema (s : schema)       (* an instance of Schema *)
with default : Type :=
| DValue (v : value)
| DProducer (p : producer).  (* [isFunction(definition.defaultValue)] *)

Definition doc_schema (d : document) : schema := let (s, _) := d in s.
Definition doc_props (d : document) : list (string * property) := let (_, p) := d in p.
Definition schema_fields (s : schema) : list (string * definition) := let (f, _) := s in f.
Definition schema_mode (s : schema) : string := let (_, m) := s in m.
Definition def_type (d : definition) : ftype := let (t, _, _, _, _) := d in t.
Definition def_default (d : definition) : default := let (_, v, _, _, _) := d in v.
Definition def_get (d : definition) : option hook := let (_, _, g, _, _) := d in g.
Definition def_set (d : definition) : option hook := let (_, _, _, s, _) := d in s.
Definition def_validations (d : definition) : list rule := let (_, _, _, _, v) := d in v.

(** [defineField(name, definition={})]: the empty definition. *)
Definition empty_definition : definition := MkDef TUndefined (DValue VUndefined) None None [].

(** Values of a validation result: [undefined], [null], a boolean (the
    [isValid] of a node), a string (a message), a result node
    [{isValid, messages, related}],
    the error map of a whole document, or the array built for an
    array-typed field. *)
#[warnings="-register-all"]
Inductive rel : Type :=
| RUndefined
| RNull
| RBool (b : bool)
| RStr (s : string)
| RNode (isValid : bool) (messages : list string) (related : rel)
| RMap (errors : list (string * rel))
| RArr (items : list rel).

(** ** Collaborators *)

Class Runtime : Type := {
  (** typeable's [cast(value, type, {schema})] *)
  cast : value -> ftype -> (value -> outcome value) -> outcome value;
  (** [this._validator.validate(value, validations)], the validator
      having been built with [context: this] *)
  run_rules : document -> value -> list rule -> list string;
  (** [definition.get(data, this)] and [definition.set(data, this)] *)
  apply_hook : hook -> value -> document -> value;
  (** [definition.defaultValue(this)] *)
  apply_producer : producer -> document -> value
}.

(** Modelled from the spec: the predicates imported from typeable, which
    is not part of the sources.  [isObject] holds of plain objects only
    ("a non-array object", "an object-shaped value"), [isArray] of
    arrays, [isUndefined] of [undefined]. *)
Definition isObject (v : value) : bool :=
  match v with VObj _ => true | _ => false end.

Definition isArray (v : value) : bool :=
  match v with VArr _ => true | _ => false end.

(** JavaScript truthiness, the test of [v && ...]. *)
Definition truthy (v : value) : bool :=
  match v with
  | VUndefined | VNull => false
  | VBool b => b
  | VNum n => negb (Z.eqb n 0)
  | VStr s => negb (String.eqb s "")
  | VArr _ | VObj _ | VDoc _ => true
  end.

(** [schema instanceof Schema], [isArray(type)] on a type descriptor. *)
Definition is_schema (t : ftype) : bool :=
  match t with TSchema _ => true | _ => false end.

Definition is_array_type (t : ftype) : bool :=
  match t with TArray _ => true | _ => false end.

(** [type[0]] *)
Definition type_0 (t : ftype) : ftype :=
  match t with TArray type0 => type0 | _ => TUndefined end.

(** The elements [for (let v of value)] visits. *)
Definition items_of (v : value) : list value :=
  match v with VArr items => items | _ => [] end.

(** A default parameter [(value=null)]: [undefined] becomes [null]. *)
Definition normalize (v : value) : value :=
  match v with VUndefined => VNull | _ => v end.

(** The own properties a document is born with: [_schema] has a getter
    only and [_validator] is not writable, neither is configurable. *)
Definition reserved (name : string) : bool :=
  String.eqb name "_schema" || String.eqb name "_validator".

(** ** The methods of the class

    [construct] stands for [new this.constructor(type, value)], the only
    way the methods reach the constructor; the constructor itself ties
    the knot below. *)

Section Methods.
Context {RT : Runtime}.
Variable construct : ftype -> value -> outcome document.

(** The [schema] callback handed to [cast] by [castValue]. *)
Definition schema_hook (type : ftype) (val : value) : outcome value :=
  let type := if is_array_type type then type_0 type else type in
  d <- construct type val ;; Ok (VDoc d).

Definition castValue (val : value) (defn : definition) : outcome value :=
  cast val (def_type defn) (schema_hook (def_type defn)).

(** [this[name] = p] at the level of property descriptors. *)
Definition store (this : document) (name : string) (p : property) : document :=
  Doc (doc_schema this) (set_entry name p (doc_props this)).

(** The [get] of the accessor of [defineField]. *)
Definition getter (this : document) (defn : definition) (data : value) : value :=
  match def_get defn with
  | Some g => apply_hook g data this
  | None => data
  end.

(** The [set] of the accessor of [defineField], with its default
    parameter [(value=null)]. *)
Definition setter (this : document) (name : string) (defn : definition)
           (val : value) : outcome document :=
  let val := normalize val in
  data <- castValue val defn ;;
  let this := store this name (PAccessor defn data) in
  match def_set defn with
  | Some s => Ok (store this name (PAccessor defn (apply_hook s data this)))
  | None => Ok this
  end.

(** [this[name]] *)
Definition read_property (this : document) (p : property) : value :=
  match p with
  | PAccessor defn data => getter this defn data
  | PData v => v
  end.

Definition read (this : document) (name : string) : value :=
  match lookup name (doc_props this) with
  | Some p => read_property this p
  | None => VUndefined
  end.

(** [this[name] = value] *)
Definition assign (this : document) (name : string) (val : value) : outcome document :=
  match lookup name (doc_props this) with
  | Some (PAccessor defn _) => setter this name defn val
  | Some (PData _) => Ok (store this name (PData val))
  | None =>
      if reserved name
      then Throw (JsTypeError ("Cannot assign to read only property " ++ name))
      else Ok (store this name (PData val))
  end.

Definition defineField (this : document) (name : string) (defn : definition)
  : outcome document :=
  if reserved name
  then Throw (JsTypeError ("Cannot redefine property: " ++ name))
  else
    let this := store this name (PAccessor defn VUndefined) in
    match def_default defn with
    | DProducer p => assign this name (apply_producer p this)
    | DValue v => assign this name v
    end.

Definition defineFields (this : document) (fields : list (string * definition))
  : outcome document :=
  foldM (fun this f => defineField this (fst f) (snd f)) fields this.

Definition define (this : document) : outcome document :=
  defineFields this (schema_fields (doc_schema this)).

Definition populateField (this : document) (name : string) (val : value)
  : outcome document :=
  if String.eqb (schema_mode (doc_schema this)) "relaxed"
  then assign this name val
  else
    let names := keys (schema_fields (doc_schema this)) in
    let exists_ := existsb (String.eqb name) names in
    if exists_ then assign this name val else Ok this.

(** [for (let name in fields)] on a plain object *)
Definition entries_of (fields : value) : list (string * value) :=
  match fields with VObj entries => entries | _ => [] end.

Definition populate (this : document) (fields : value) : outcome document :=
  let fields := match fields with VUndefined => VObj [] | _ => fields end in
  if negb (isObject fields)
  then Throw (JsError "Only Object can populate a Document")
  else foldM (fun this e => populateField this (fst e) (snd e)) (entries_of fields) this.

Definition purgeField (this : document) (name : string) : document :=
  Doc (doc_schema this) (remove_key name (doc_props this)).

Definition purgeFields (this : document) (names : list string) : document :=
  fold_left purgeField names this.

Definition purge (this : document) : document :=
  let names := keys (doc_props this) in
  purgeFields this names.

Definition clearField (this : document) (name : string) : outcome document :=
  assign this name VNull.

Definition clear (this : document) : outcome document :=
  let names := keys (doc_props this) in
  foldM clearField names this.

(** The body of the constructor, run on an object [this] that already
    has the enumerable own properties [pre]. *)
Definition constructor_body (pre : list (string * property)) (schema : ftype)
           (data : value) : outcome document :=
  match schema with
  | TSchema s =>
      let this := Doc s pre in
      let this := purge this in
      this <- define this ;;
      populate this data
  | _ => Throw (JsError "Document expects schema to be an instance of Schema class")
  end.
End Methods.

(** [new Document(schema, data)] on an object with the own properties
    [pre]; nested documents are born without any. *)
Fixpoint new_Document_on {RT : Runtime} (fuel : nat) (pre : list (string * property))
         (schema : ftype) (data : value) : outcome document :=
  match fuel with
  | 0 => OutOfFuel
  | S fuel' => constructor_body (new_Document_on fuel' []) pre schema data
  end.

Definition new_Document {RT : Runtime} (fuel : nat) (schema : ftype) (data : value)
  : outcome document :=
  new_Document_on fuel [] schema data.

(** ** Serialisation *)

Section SerialisationStep.
Context {RT : Runtime}.
(** the [valueToObject] closure of a nested call *)
Variable valueToObject_rec : value -> outcome value.

Definition toObject_body (this : document) : outcome value :=
  let names := keys (doc_props this) in
  data <- foldM (fun data name =>
                   o <- valueToObject_rec (read this name) ;;
                   Ok (set_entry name o data))
                names [] ;;
  Ok (VObj data).

Definition valueToObject_body (v : value) : outcome value :=
  match v with
  | VDoc d => toObject_body d
  | VObj entries =>
      match lookup "toObject" entries with
      | Some m =>
          if truthy m
          then Throw (JsTypeError "v.toObject is not a function")
          else Ok v
      | None => Ok v
      end
  | VArr items => items' <- mapM valueToObject_rec items ;; Ok (VArr items')
  | _ => Ok v
  end.
End SerialisationStep.

Fixpoint valueToObject {RT : Runtime} (fuel : nat) (v : value) : outcome value :=
  match fuel with
  | 0 => OutOfFuel
  | S fuel' => valueToObject_body (valueToObject fuel') v
  end.

Definition toObject {RT : Runtime} (fuel : nat) (this : document) : outcome value :=
  toObject_body (valueToObject fuel) this.

Definition clone {RT : Runtime} (fuel : nat) (this : document) : outcome document :=
  o <- toObject fuel this ;;
  new_Document fuel (TSchema (doc_schema this)) o.

(** ** Validation *)

Definition isUndefined_rel (v : rel) : bool :=
  match v with RUndefined => true | _ => false end.

Definition truthy_rel (v : rel) : bool :=
  match v with
  | RUndefined | RNull => false
  | RBool b => b
  | RStr s => negb (String.eqb s "")
  | RNode _ _ _ | RMap _ | RArr _ => true
  end.

Definition isObject_rel (v : rel) : bool :=
  match v with RNode _ _ _ | RMap _ => true | _ => false end.

Definition isArray_rel (v : rel) : bool :=
  match v with RArr _ => true | _ => false end.

(** [Object.values(related)] *)
Definition values_rel (v : rel) : list rel :=
  match v with
  | RMap errors => map snd errors
  | RNode b messages related => [RBool b; RArr (map RStr messages); related]
  | RArr items => items
  | _ => []
  end.

(** [v.isValid] *)
Definition prop_isValid (v : rel) : outcome rel :=
  match v with
  | RUndefined | RNull =>
      Throw (JsTypeError "Cannot read property 'isValid' of undefined")
  | RNode b _ _ => Ok (RBool b)
  | RMap errors =>
      Ok (match lookup "isValid" errors with Some e => e | None => RUndefined end)
  | RBool _ | RStr _ | RArr _ => Ok RUndefined
  end.

(** [!v || v.isValid] *)
Definition not_or_isValid (v : rel) : outcome rel :=
  if negb (truthy_rel v) then Ok (RBool true) else prop_isValid v.

(** [l.includes(false)] *)
Definition includes_false (l : list rel) : bool :=
  existsb (fun x => match x with RBool false => true | _ => false end) l.

Section ValidationStep.
Context {RT : Runtime}.
(** [this.validateField] of a nested call *)
Variable validateField_rec : document -> value -> option definition -> outcome rel.

Definition validate_body (this : document) : outcome rel :=
  errors <- foldM (fun errors name =>
                     let val := read this name in
                     let defn := lookup name (schema_fields (doc_schema this)) in
                     error <- validateField_rec this val defn ;;
                     Ok (if negb (isUndefined_rel error)
                         then set_entry name error errors
                         else errors))
                  (keys (doc_props this)) [] ;;
  Ok (RMap errors).

(** [v.validate()] on a value that need not be a document *)
Definition call_validate (v : value) : outcome rel :=
  match v with
  | VDoc d => validate_body d
  | _ => Throw (JsTypeError "value.validate is not a function")
  end.

Definition validateField_body (this : document) (val : value)
           (defn : option definition) : outcome rel :=
  match defn with
  | None => Throw (JsTypeError "Cannot destructure property 'type' of undefined")
  | Some d =>
      let type := def_type d in
      let validations := def_validations d in
      let messages := run_rules this val validations in
      related <-
        (if is_schema type && truthy val then call_validate val
         else if is_array_type type && isArray val
         then related <- mapM (fun v =>
                                 if is_schema (type_0 type)
                                 then if truthy v then call_validate v
                                      else Ok RUndefined
                                 else validateField_rec this v defn)
                              (items_of val) ;;
              Ok (RArr related)
         else Ok RNull) ;;
      let isValid := Nat.eqb (List.length messages) 0 in
      isValid <-
        (if truthy_rel related && isObject_rel related
         then flags <- mapM prop_isValid (values_rel related) ;;
              Ok (negb (includes_false flags))
         else if truthy_rel related && isArray_rel related
         then flags <- mapM not_or_isValid (values_rel related) ;;
              Ok (includes_false flags)
         else Ok isValid) ;;
      Ok (if isValid then RUndefined else RNode isValid messages related)
  end.
End ValidationStep.

Fixpoint validateField {RT : Runtime} (fuel : nat) (this : document) (val : value)
         (defn : option definition) : outcome rel :=
  match fuel with
  | 0 => OutOfFuel
  | S fuel' => validateField_body (validateField fuel') this val defn
  end.

Definition validate {RT : Runtime} (fuel : nat) (this : document) : outcome rel :=
  validate_body (validateField fuel) this.

(** ** A concrete runtime

    Modelled from the spec: a TypeCaster as section 4.4 describes it
    (absent values become [null]; a nested Schema goes to the [schema]
    callback; an array type casts each element, a single value being
    taken as an array of one; the scalar type 'Boolean' coerces to a
    boolean and every other scalar type keeps primitive values and
    gives [null] for the others), a RuleExecutor with the two rules
    [presence] and [absence], the hooks [const] and [double] and one
    producer, of the number 7. *)

Definition keep_primitive (v : value) : value :=
  match v with
  | VBool _ | VNum _ | VStr _ => v
  | _ => VNull
  end.

Fixpoint simple_cast (t : ftype) (h : value -> outcome value) (v : value) {struct t}
  : outcome value :=
  match v with
  | VUndefined | VNull => Ok VNull
  | _ =>
      match t with
      | TSchema _ => h v
      | TArray t0 =>
          match v with
          | VArr items => items' <- mapM (simple_cast t0 h) items ;; Ok (VArr items')
          | _ => v' <- simple_cast t0 h v ;; Ok (VArr [v'])
          end
      | TScalar tag =>
          if String.eqb tag "Boolean" then Ok (VBool (truthy v)) else Ok (keep_primitive v)
      | TUndefined => Ok (keep_primitive v)
      end
  end.

Definition simple_rule (val : value) (r : rule) : list string :=
  if String.eqb r "presence"
  then match val with VUndefined | VNull => ["is required"] | _ => [] end
  else if String.eqb r "absence"
  then match val with VUndefined | VNull => [] | _ => ["must be blank"] end
  else [].

Definition simple_hook (h : hook) (data : value) (this : document) : value :=
  if String.eqb h "const" then VStr "fixed"
  else if String.eqb h "double"
  then match data with VNum n => VNum (2 * n) | _ => data end
  else data.

Definition simple_runtime : Runtime := {|
  cast := fun v t h => simple_cast t h v;
  run_rules := fun _ val rules => flat_map (simple_rule val) rules;
  apply_hook := simple_hook;
  apply_producer := fun _ _ => VNum 7
|}.

(** ** Example schemas and documents *)

Definition plain_field (t : ftype) : definition :=
  MkDef t (DValue VUndefined) None None [].

(** [{name: {type: 'String', validations: {presence}},
      tags: {type: ['String'], validations: {presence}}}], strict *)
Definition name_definition : definition :=
  MkDef (TScalar "String") (DValue VUndefined) None None ["presence"].

Definition tags_definition : definition :=
  MkDef (TArray (TScalar "String")) (DValue VUndefined) None None ["presence"].

Definition person_schema : schema :=
  MkSchema [("name", name_definition); ("tags", tags_definition)] "strict".

(** [new Document(person_schema, {})] *)
Definition blank_person : document :=
  Doc person_schema
      [("name", PAccessor name_definition VNull);
       ("tags", PAccessor tags_definition VNull)].

(** [new Document(person_schema, {name: 'Ann', tags: ['x']})] *)
Definition ann : document :=
  Doc person_schema
      [("name", PAccessor name_definition (VStr "Ann"));
       ("tags", PAccessor tags_definition (VArr [VStr "x"]))].

(** A schema without fields; a parent whose field [child] is of that
    schema and carries the rule [absence]; and
    [new Document(parent_schema, {child: {}})]. *)
Definition empty_schema : schema := MkSchema [] "strict".

Definition child_definition : definition :=
  MkDef (TSchema empty_schema) (DValue VUndefined) None None ["absence"].

Definition parent_schema : schema := MkSchema [("child", child_definition)] "strict".

Definition parent_with_child : document :=
  Doc parent_schema [("child", PAccessor child_definition (VDoc (Doc empty_schema [])))].

(** A relaxed schema without fields, the document
    [new Document(relaxed_schema, {})] and the document
    [new Document(relaxed_schema, {extra: 1})]. *)
Definition relaxed_schema : schema := MkSchema [] "relaxed".

Definition relaxed_empty : document := Doc relaxed_schema [].

Definition relaxed_extra : document :=
  Doc relaxed_schema [("extra", PData (VNum 1))].

(** A field whose custom getter is the hook [const], and
    [new Document(label_schema, {})]. *)
Definition label_definition : definition :=
  MkDef (TScalar "String") (DValue VUndefined) (Some "const") None [].

Definition label_schema : schema := MkSchema [("label", label_definition)] "strict".

Definition labelled : document :=
  Doc label_schema [("label", PAccessor label_definition VNull)].

(** A relaxed schema with a scalar field, a nested document and an array
    of nested documents, and a document of it that also owns the
    undeclared key [note]. *)
Definition family_schema : schema :=
  MkSchema
    [("title", plain_field (TScalar "String"));
     ("head", plain_field (TSchema person_schema));
     ("members", plain_field (TArray (TSchema person_schema)))]
    "relaxed".

Definition family : document :=
  Doc family_schema
      ([("title", PAccessor (plain_field (TScalar "String")) (VStr "Smith"));
        ("head", PAccessor (plain_field (TSchema person_schema)) (VDoc ann));
        ("members", PAccessor (plain_field (TArray (TSchema person_schema)))
                              (VArr [VDoc ann; VNull]))]
         ++ [("note", PData (VNum 1))]).

(** ** Auxiliary definitions of the proofs *)

(** One turn of the loop of [validate]. *)
Definition validate_step {RT : Runtime}
           (vf : document -> value -> option definition -> outcome rel)
           (this : document) (errors : list (string * rel)) (name : string) : outcome (list (string * rel)) :=
  error <- vf this (read this name)
              (lookup name (schema_fields (doc_schema this))) ;;
  Ok (if negb (isUndefined_rel error) then set_entry name error errors else errors).

Definition is_node (r : rel) : Prop :=
  exists messages related, r = RNode false messages related.

(** What the setter leaves in the slot: the cast value [c], or what the
    custom [set] hook makes of it on the document [mid] it is given. *)
Definition after_set {RT : Runtime} (defn : definition) (c : value) (mid : document) : value :=
  match def_set defn with
  | Some s => apply_hook s c mid
  | None => c
  end.

Definition is_accessor (p : property) : Prop :=
  exists defn data, p = PAccessor defn data.

(** Every enumerable own key is an accessor of [defineField]. *)
Definition accessor_invariant (this : document) : Prop :=
  Forall (fun entry => is_accessor (snd entry)) (doc_props this).

(** The keys [populateField] lets through. *)
Definition admitted (s : schema) (name : string) : bool :=
  String.eqb (schema_mode s) "relaxed" || existsb (String.eqb name) (keys (schema_fields s)).

(** The default a field starts from, the producer being run on [mid]. *)
Definition default_of {RT : Runtime} (defn : definition) (mid : document) : value :=
  match def_default defn with
  | DProducer p => apply_producer p mid
  | DValue v => v
  end.

(** What [clearField] makes of a property. *)
Definition cleared {RT : Runtime} (p p' : property) : Prop :=
  match p with
  | PAccessor defn _ => exists mid, p' = PAccessor defn (after_set defn VNull mid)
  | PData _ => p' = PData VNull
  end.

(** [valueToObject] returns [v] itself, from some fuel on. *)
Definition inert {RT : Runtime} (v : value) : Prop :=
  exists m, forall m', m <= m' -> valueToObject m' v = Ok v.

(** The type the [schema] callback of a field of type [T] constructs. *)
Definition hook_target (T : ftype) : ftype :=
  if is_array_type T then type_0 T else T.

(** Documents that [clone()] reproduces, [S n] being a fuel at which the
    constructor does.  Such a document has one accessor per field of its
    schema, in the order of the schema and without custom hooks,
    followed in relaxed mode by plain properties whose values serialise
    to themselves.  A slot of a field of type [T] holds, at type [t]
    ([t] is [T], or an element type of it): a value that serialises to
    itself, is not [undefined], and that the caster leaves unchanged;
    a document of this kind of the schema [t], which is also the schema
    the callback constructs; or an array of such values at the element
    type. *)
#[warnings="-register-all"]
Inductive stable_value {RT : Runtime} : nat -> ftype -> ftype -> value -> Prop :=
| stable_kept n T t x :
    x <> VUndefined ->
    inert x ->
    (forall h, cast x t h = Ok x) ->
    stable_value n T t x
| stable_nested n T s c :
    hook_target T = TSchema s ->
    doc_schema c = s ->
    stable_doc n c ->
    stable_value n T (TSchema s) (VDoc c)
| stable_items n T e items :
    Forall (stable_value n T e) items ->
    stable_value n T (TArray e) (VArr items)
with stable_doc {RT : Runtime} : nat -> document -> Prop :=
| stable_document n s accessors extras d0 :
    NoDup (keys (schema_fields s) ++ keys extras) ->
    define (new_Document_on n []) (Doc s []) = Ok d0 ->
    Forall2 (fun f p =>
               fst p = fst f /\
               def_get (snd f) = None /\
               def_set (snd f) = None /\
               exists x, snd p = PAccessor (snd f) x /\
                         stable_value n (def_type (snd f)) (def_type (snd f)) x)
            (schema_fields s) accessors ->
    Forall (fun e => reserved (fst e) = false /\
                     exists v, snd e = PData v /\ inert v)
           extras ->
    (extras = [] \/ schema_mode s = "relaxed") ->
    stable_doc (S n) (Doc s (accessors ++ extras)).

(** [populate] run over accessors without [set] hook: the properties
    before, the entries assigned, the properties after. *)
Inductive assigned {RT : Runtime} (construct : ftype -> value -> outcome document)
  : list (string * property) -> list (string * value) -> list (string * property) -> Prop :=
| assigned_nil : assigned construct [] [] []
| assigned_cons name defn old o x rest entries targets :
    def_set defn = None ->
    castValue construct (normalize o) defn = Ok x ->
    assigned construct rest entries targets ->
    assigned construct ((name, PAccessor defn old) :: rest) ((name, o) :: entries)
             ((name, PAccessor defn x) :: targets).

(** [toObject()] of [c] resolves from some fuel on, and the constructor
    run with fuel [n] on the schema of [c] and that object gives [c]. *)
Definition reproduced {RT : Runtime} (n : nat) (c : document) : Prop :=
  exists m entries,
    (forall m', m <= m' -> toObject m' c = Ok (VObj entries)) /\
    forall pre, new_Document_on n pre (TSchema (doc_schema c)) (VObj entries) = Ok c.

(** Schemas in a mode other than [relaxed], with distinct field names
    and without custom hooks, all the way down. *)
Inductive regular_type : ftype -> Prop :=
| regular_TUndefined : regular_type TUndefined
| regular_TScalar tag : regular_type (TScalar tag)
| regular_TArray e : regular_type e -> regular_type (TArray e)
| regular_TSchema s : regular_schema s -> regular_type (TSchema s)
with regular_schema : schema -> Prop :=
| regular_MkSchema fields mode :
    mode <> "relaxed" ->
    NoDup (keys fields) ->
    Forall (fun f => def_get (snd f) = None /\
                     def_set (snd f) = None /\
                     regular_type (def_type (snd f)))
           fields ->
    regular_schema (MkSchema fields mode).

(** [t] is [T] with some array levels taken off. *)
Inductive peeled (T : ftype) : ftype -> Prop :=
| peeled_refl : peeled T T
| peeled_step t : peeled T (TArray t) -> peeled T t.

(** A TypeCaster that loses nothing on its own results: [null] stays
    [null]; at a Schema type a plain object goes to the [schema]
    callback and every result is [null] or a result of the callback; at
    an array type an array is cast element by element and every result
    is [null] or an array of element casts; at any other type a result
    is not [undefined], serialises to itself and is cast to itself. *)
Record lossless_caster {RT : Runtime} : Prop := {
  cast_null : forall t h, cast VNull t h = Ok VNull;
  cast_object : forall entries s h, cast (VObj entries) (TSchema s) h = h (VObj entries);
  cast_items :
    forall items e h,
      cast (VArr items) (TArray e) h =
      (items' <- mapM (fun x => cast x e h) items ;; Ok (VArr items'));
  cast_schema_result :
    forall v s h x, cast v (TSchema s) h = Ok x -> x = VNull \/ h v = Ok x;
  cast_array_result :
    forall v e h x,
      cast v (TArray e) h = Ok x ->
      x = VNull \/
      exists vs xs, x = VArr xs /\ Forall2 (fun v x => cast v e h = Ok x) vs xs;
  cast_scalar_result :
    forall v t h x,
      is_schema t = false -> is_array_type t = false ->
      cast v t h = Ok x ->
      x <> VUndefined /\ inert x /\ forall h', cast x t h' = Ok x
}.

(** The accessors [props] follow the declarations [fields], each slot
    satisfying [P]. *)
Definition aligned (P : definition -> value -> Prop)
           (fields : list (string * definition)) (props : list (string * property)) : Prop :=
  Forall2 (fun f p => fst p = fst f /\ exists x, snd p = PAccessor (snd f) x /\ P (snd f) x)
          fields props.

(** Values that are no Document and, when arrays, hold none at any array
    depth; a plain object counts whatever it holds. *)
#[warnings="-register-all"]
Inductive serialised : value -> Prop :=
| serialised_undefined : serialised VUndefined
| serialised_null : serialised VNull
| serialised_bool b : serialised (VBool b)
| serialised_num n : serialised (VNum n)
| serialised_str s : serialised (VStr s)
| serialised_obj entries : serialised (VObj entries)
| serialised_arr items : Forall serialised items -> serialised (VArr items).

(** One turn of a loop that binds [name] to the result of [f name]. *)
Definition collect {B : Type} (f : string -> outcome B)
           (data : list (string * B)) (name : string) : outcome (list (string * B)) :=
  o <- f name ;; Ok (set_entry name o data).

(** What [clearField] leaves of a property that has no custom [set]
    hook, given a caster that keeps [null]. *)
Definition clear_prop (p : property) : property :=
  match p with
  | PAccessor defn _ => PAccessor defn VNull
  | PData _ => PData VNull
  end.


(** * Properties *)

(** ** The result monad and association lists *)

Lemma bind_Ok_inv {A B : Type} (m : outcome A) (k : A -> outcome B) (b : B) :
  bind m k = Ok b -> exists a, m = Ok a /\ k a = Ok b.
Proof.
  destruct m as [a | e |]; simpl; intros H; try discriminate.
  exists a; split; [reflexivity | exact H].
Qed.

Lemma mapM_Ok_Forall2 {A B : Type} (f : A -> outcome B) (l : list A) (r : list B) :
  mapM f l = Ok r <-> Forall2 (fun x y => f x = Ok y) l r.
Proof.
  revert r; induction l as [| x l IH]; simpl; intros r; split; intros H.
  - injection H as <-. constructor.
  - inversion H. reflexivity.
  - apply bind_Ok_inv in H as (y & Hy & H).
    apply bind_Ok_inv in H as (ys & Hys & H).
    injection H as <-. constructor; [exact Hy | apply IH, Hys].
  - inversion H as [| x' y l' ys Hy Hys]; subst.
    rewrite Hy. simpl. apply IH in Hys. rewrite Hys. reflexivity.
Qed.

Section AssocFacts.
Context {A : Type}.
Implicit Types (l : list (string * A)) (k : string) (a : A).

Lemma lookup_set_entry_same k a l : lookup k (set_entry k a l) = Some a.
Proof.
  induction l as [| [k' a'] l IH]; simpl.
  - rewrite String.eqb_refl. reflexivity.
  - destruct (String.eqb k k') eqn:E; simpl.
    + rewrite String.eqb_refl. reflexivity.
    + rewrite E. exact IH.
Qed.

Lemma lookup_set_entry_other k k' a l :
  k' <> k -> lookup k' (set_entry k a l) = lookup k' l.
Proof.
  intros Hne. induction l as [| [k0 a0] l IH]; simpl.
  - apply String.eqb_neq in Hne. rewrite Hne. reflexivity.
  - destruct (String.eqb k k0) eqn:E; simpl.
    + apply String.eqb_eq in E; subst k0.
      apply String.eqb_neq in Hne. rewrite Hne. reflexivity.
    + destruct (String.eqb k' k0); [reflexivity | exact IH].
Qed.

Lemma keys_set_entry_present k a l :
  In k (keys l) -> keys (set_entry k a l) = keys l.
Proof.
  induction l as [| [k' a'] l IH]; simpl; intros H.
  - contradiction.
  - destruct (String.eqb k k') eqn:E; simpl.
    + apply String.eqb_eq in E; subst. reflexivity.
    + f_equal. apply IH. destruct H as [H | H]; [| exact H].
      subst. rewrite String.eqb_refl in E. discriminate.
Qed.

Lemma keys_set_entry_absent k a l :
  ~ In k (keys l) -> keys (set_entry k a l) = keys l ++ [k].
Proof.
  induction l as [| [k' a'] l IH]; simpl; intros H.
  - reflexivity.
  - destruct (String.eqb k k') eqn:E; simpl.
    + apply String.eqb_eq in E; subst. exfalso. apply H. left. reflexivity.
    + f_equal. apply IH. intros Hin. apply H. right. exact Hin.
Qed.

Lemma in_keys_set_entry k k' a l :
  In k' (keys (set_entry k a l)) <-> k' = k \/ In k' (keys l).
Proof.
  induction l as [| [k0 a0] l IH]; simpl.
  - split; [intros [H | []]; left; auto | intros [H | []]; left; auto].
  - destruct (String.eqb k k0) eqn:E; simpl.
    + apply String.eqb_eq in E; subst k0. intuition congruence.
    + rewrite IH. intuition congruence.
Qed.

Lemma lookup_Some_in_keys k a l : lookup k l = Some a -> In k (keys l).
Proof.
  induction l as [| [k' a'] l IH]; simpl; [discriminate |].
  destruct (String.eqb k k') eqn:E; intros H.
  - apply String.eqb_eq in E. left. symmetry. exact E.
  - right. apply IH, H.
Qed.

Lemma lookup_None_not_in_keys k l : lookup k l = None <-> ~ In k (keys l).
Proof.
  induction l as [| [k' a'] l IH]; simpl.
  - tauto.
  - destruct (String.eqb k k') eqn:E.
    + apply String.eqb_eq in E. subst. split; [discriminate | intros H; exfalso; auto].
    + apply String.eqb_neq in E. rewrite IH. split.
      * intros H [H' | H']; [congruence | auto].
      * intros H H'. apply H. right. exact H'.
Qed.

Lemma in_keys_lookup k l : In k (keys l) -> exists a, lookup k l = Some a.
Proof.
  intros H. destruct (lookup k l) as [a |] eqn:E.
  - exists a. reflexivity.
  - apply lookup_None_not_in_keys in E. contradiction.
Qed.

Lemma existsb_eqb_in k (ks : list string) :
  existsb (String.eqb k) ks = true <-> In k ks.
Proof.
  rewrite existsb_exists. split.
  - intros (x & Hx & E). apply String.eqb_eq in E. subst. exact Hx.
  - intros H. exists k. split; [exact H | apply String.eqb_refl].
Qed.

Lemma keys_remove_key k l :
  keys (remove_key k l) = filter (fun x => negb (String.eqb k x)) (keys l).
Proof.
  unfold remove_key, keys. induction l as [| [k' a'] l IH]; simpl.
  - reflexivity.
  - destruct (String.eqb k k'); simpl; [exact IH | f_equal; exact IH].
Qed.

Lemma lookup_Some_In k a l : lookup k l = Some a -> In (k, a) l.
Proof.
  induction l as [| [k' a'] l IH]; simpl; [discriminate |].
  destruct (String.eqb k k') eqn:E.
  - apply String.eqb_eq in E. subst. intros H. injection H as <-. left. reflexivity.
  - intros H. right. apply IH, H.
Qed.
End AssocFacts.

(** ** Validation *)

Section ValidationFacts.
Context {RT : Runtime}.
Implicit Types (this : document) (errors : list (string * rel)).


Lemma validate_body_unfold vf this :
  validate_body vf this =
  (errors <- foldM (validate_step vf this) (keys (doc_props this)) [] ;;
   Ok (RMap errors)).
Proof. reflexivity. Qed.

Lemma validate_loop_outside vf this names errors0 errors name :
  foldM (validate_step vf this) names errors0 = Ok errors ->
  ~ In name names ->
  lookup name errors = lookup name errors0.
Proof.
  revert errors0. induction names as [| n names IH]; simpl; intros errors0 H Hout.
  - injection H as <-. reflexivity.
  - apply bind_Ok_inv in H as (acc & Hstep & H).
    rewrite (IH _ H) by tauto.
    unfold validate_step in Hstep.
    apply bind_Ok_inv in Hstep as (e & _ & Hacc). injection Hacc as <-.
    destruct (negb (isUndefined_rel e)); [| reflexivity].
    apply lookup_set_entry_other. intros ->. apply Hout. left. reflexivity.
Qed.

Lemma validate_loop_inside vf this names errors0 errors name :
  foldM (validate_step vf this) names errors0 = Ok errors ->
  In name names ->
  exists e,
    vf this (read this name) (lookup name (schema_fields (doc_schema this))) = Ok e /\
    lookup name errors = if isUndefined_rel e then lookup name errors0 else Some e.
Proof.
  revert errors0. induction names as [| n names IH]; simpl; intros errors0 H Hin.
  - contradiction.
  - apply bind_Ok_inv in H as (acc & Hstep & H).
    pose proof Hstep as Hstep'. unfold validate_step in Hstep'.
    apply bind_Ok_inv in Hstep' as (e & He & Hacc). injection Hacc as Hacc.
    destruct (in_dec string_dec name names) as [Hlater | Hnot].
    + destruct (IH _ H Hlater) as (e' & He' & Hl). exists e'. split; [exact He' |].
      rewrite Hl. destruct (isUndefined_rel e') eqn:Eu; [| reflexivity].
      subst acc. destruct (string_dec name n) as [-> | Hne].
      * rewrite He in He'. injection He' as ->. rewrite Eu. reflexivity.
      * destruct (negb (isUndefined_rel e)); [| reflexivity].
        apply lookup_set_entry_other. exact Hne.
    + destruct Hin as [-> | Hin]; [| contradiction].
      exists e. split; [exact He |].
      rewrite (validate_loop_outside _ _ _ _ _ _ H Hnot). subst acc.
      destruct (isUndefined_rel e); simpl; [reflexivity |].
      apply lookup_set_entry_same.
Qed.

Lemma validate_loop_total vf this names errors0 :
  (forall name, In name names ->
                exists e, vf this (read this name)
                             (lookup name (schema_fields (doc_schema this))) = Ok e) ->
  exists errors, foldM (validate_step vf this) names errors0 = Ok errors.
Proof.
  revert errors0. induction names as [| n names IH]; simpl; intros errors0 Hall.
  - exists errors0. reflexivity.
  - destruct (Hall n (or_introl eq_refl)) as (e & He).
    unfold validate_step at 1. rewrite He. simpl.
    apply IH. intros name Hin. apply Hall. right. exact Hin.
Qed.

(** A field result is [undefined] or a node whose [isValid] is [false]. *)
Lemma validateField_shape fuel this val defn r :
  validateField fuel this val defn = Ok r ->
  r = RUndefined \/ exists messages related, r = RNode false messages related.
Proof.
  destruct fuel as [| fuel]; simpl; [discriminate |].
  unfold validateField_body. destruct defn as [d |]; [| discriminate].
  intros H. apply bind_Ok_inv in H as (related & _ & H).
  apply bind_Ok_inv in H as (b & _ & H). injection H as <-.
  destruct b; [left; reflexivity | right; eauto].
Qed.

Lemma validate_no_fields fuel s : validate fuel (Doc s []) = Ok (RMap []).
Proof. reflexivity. Qed.

(** A present key without a definition in the schema keeps [validate]
    from resolving, wherever the key stands. *)
Lemma validate_undeclared_never_resolves fuel this name r :
  In name (keys (doc_props this)) ->
  lookup name (schema_fields (doc_schema this)) = None ->
  validate fuel this <> Ok r.
Proof.
  intros Hin Hnone H. unfold validate in H. rewrite validate_body_unfold in H.
  apply bind_Ok_inv in H as (errors & Hloop & _).
  destruct (validate_loop_inside _ _ _ _ _ _ Hloop Hin) as (e & He & _).
  rewrite Hnone in He. destruct fuel; discriminate.
Qed.
End ValidationFacts.

(** C4. The value [validate()] resolves to is a sparse error map: it has
    a key exactly for the present fields whose [validateField] result is
    not [undefined], bound to that result, hence no key for a valid
    field; a document without fields resolves to the empty map, and
    [validate()] resolves whenever [validateField] does on every present
    field. *)
Theorem validate_sparse_error_map {RT : Runtime} :
  (forall fuel s, validate fuel (Doc s []) = Ok (RMap [])) /\
  (forall fuel this,
      (forall name,
          In name (keys (doc_props this)) ->
          exists e, validateField fuel this (read this name)
                                  (lookup name (schema_fields (doc_schema this))) = Ok e) ->
      exists errors, validate fuel this = Ok (RMap errors)) /\
  (forall fuel this r,
      validate fuel this = Ok r ->
      exists errors,
        r = RMap errors /\
        forall name e,
          lookup name errors = Some e <->
          (In name (keys (doc_props this)) /\
           validateField fuel this (read this name)
                         (lookup name (schema_fields (doc_schema this))) = Ok e /\
           e <> RUndefined)).
Proof.
  split; [intros; apply validate_no_fields |]. split.
  { intros fuel this Hall. unfold validate. rewrite validate_body_unfold.
    destruct (validate_loop_total _ _ _ [] Hall) as (errors & ->).
    exists errors. reflexivity. }
  intros fuel this r H. unfold validate in H. rewrite validate_body_unfold in H.
  apply bind_Ok_inv in H as (errors & Hloop & H). injection H as <-.
  exists errors. split; [reflexivity |].
  intros name e. split.
  - intros Hl. destruct (in_dec string_dec name (keys (doc_props this))) as [Hin | Hout].
    + destruct (validate_loop_inside _ _ _ _ _ _ Hloop Hin) as (e' & He' & Hl').
      rewrite Hl in Hl'. destruct (isUndefined_rel e') eqn:Eu; [discriminate |].
      injection Hl' as ->. repeat split; [exact Hin | exact He' |].
      intros ->. discriminate.
    + rewrite (validate_loop_outside _ _ _ _ _ _ Hloop Hout) in Hl. discriminate.
  - intros (Hin & He & Hne).
    destruct (validate_loop_inside _ _ _ _ _ _ Hloop Hin) as (e' & He' & Hl').
    rewrite He in He'. injection He' as <-. rewrite Hl'.
    destruct e; try reflexivity. contradiction.
Qed.

Section ValidityFlag.
Context {RT : Runtime}.


Lemma Forall_set_entry {A : Type} (P : string * A -> Prop) k a l :
  P (k, a) -> Forall P l -> Forall P (set_entry k a l).
Proof.
  intros Hk. induction 1 as [| [k' a'] l Hx Hl IH]; simpl.
  - constructor; [exact Hk | constructor].
  - destruct (String.eqb k k'); constructor; assumption.
Qed.

(** Every entry of an error map is a node with [isValid = false]. *)
Lemma validate_entries_are_nodes fuel this errors :
  validate fuel this = Ok (RMap errors) ->
  Forall (fun entry => is_node (snd entry)) errors.
Proof.
  unfold validate. rewrite validate_body_unfold. intros H.
  apply bind_Ok_inv in H as (errors' & Hloop & H). injection H as ->.
  assert (Hgen : forall names acc,
             Forall (fun entry => is_node (snd entry)) acc ->
             foldM (validate_step (validateField fuel) this) names acc = Ok errors ->
             Forall (fun entry => is_node (snd entry)) errors).
  { induction names as [| n names IH]; simpl; intros acc Hacc Hf.
    - injection Hf as <-. exact Hacc.
    - apply bind_Ok_inv in Hf as (acc' & Hstep & Hf).
      apply (IH acc'); [| exact Hf].
      unfold validate_step in Hstep.
      apply bind_Ok_inv in Hstep as (e & He & Hstep). injection Hstep as <-.
      destruct (validateField_shape _ _ _ _ _ He) as [-> | Hnode]; simpl.
      + exact Hacc.
      + destruct Hnode as (m & r & ->). simpl.
        apply Forall_set_entry; [| exact Hacc]. simpl. exists m, r. reflexivity. }
  apply (Hgen _ [] (Forall_nil _) Hloop).
Qed.

Lemma flags_of_nodes (l : list rel) :
  Forall is_node l ->
  mapM prop_isValid l = Ok (map (fun _ => RBool false) l).
Proof.
  induction 1 as [| x l (m & r & ->) _ IH]; simpl; [reflexivity |].
  rewrite IH. reflexivity.
Qed.

(** The mapping branch: when the field is a nested Schema and its value
    a document, the result is [undefined] exactly when the error map of
    the nested document is empty; the messages of the field's own
    rules do not enter the decision. *)
Lemma validateField_nested_document fuel this c d s r :
  def_type d = TSchema s ->
  validateField (S fuel) this (VDoc c) (Some d) = Ok r ->
  exists errors,
    validate fuel c = Ok (RMap errors) /\
    (r = RUndefined <-> errors = []).
Proof.
  intros Ht. simpl. unfold validateField_body. rewrite Ht. simpl.
  fold (validate fuel c). intros H.
  apply bind_Ok_inv in H as (related & Hrel & H).
  pose proof Hrel as Hrel'. unfold validate in Hrel'. rewrite validate_body_unfold in Hrel'.
  apply bind_Ok_inv in Hrel' as (errors & _ & E). injection E as <-.
  exists errors. split; [exact Hrel |].
  simpl in H. pose proof (validate_entries_are_nodes _ _ _ Hrel) as Hnodes.
  rewrite flags_of_nodes in H by (apply Forall_map; exact Hnodes).
  simpl in H. injection H as <-.
  destruct errors as [| entry errors]; simpl.
  - split; reflexivity.
  - split; discriminate.
Qed.

Lemma flags_of_field_results (l : list rel) :
  Forall (fun e => e = RUndefined \/ is_node e) l ->
  exists flags,
    mapM not_or_isValid l = Ok flags /\
    (includes_false flags = true <-> Exists (fun e => e <> RUndefined) l).
Proof.
  induction 1 as [| x l Hx _ (flags & Hf & Hiff)]; simpl.
  - exists []. split; [reflexivity |]. simpl. split; [discriminate |].
    intros H. inversion H.
  - destruct Hx as [-> | (m & r & ->)]; simpl; rewrite Hf; simpl.
    + exists (RBool true :: flags). split; [reflexivity |]. simpl.
      rewrite Hiff. split.
      * intros H. right. exact H.
      * intros H. inversion H as [? ? Hhd | ? ? Htl]; [contradiction | exact Htl].
    + exists (RBool false :: flags). split; [reflexivity |]. simpl.
      split; [| reflexivity]. intros _. left. discriminate.
Qed.

(** The array branch with scalar elements: the result is [undefined]
    exactly when some element result is not [undefined]. *)
Lemma validateField_array_of_scalars fuel this items d t0 r :
  def_type d = TArray t0 ->
  is_schema t0 = false ->
  validateField (S fuel) this (VArr items) (Some d) = Ok r ->
  exists related,
    mapM (fun v => validateField fuel this v (Some d)) items = Ok related /\
    (r = RUndefined <-> Exists (fun e => e <> RUndefined) related).
Proof.
  intros Ht Hs. simpl. unfold validateField_body. rewrite Ht. simpl. rewrite Hs.
  intros H. apply bind_Ok_inv in H as (related & Hrel & H).
  apply bind_Ok_inv in Hrel as (results & Hres & E). injection E as <-.
  exists results. split; [exact Hres |].
  simpl in H.
  assert (Hshape : Forall (fun e => e = RUndefined \/ is_node e) results).
  { apply mapM_Ok_Forall2 in Hres. clear H.
    induction Hres as [| v e vs es Hv _ IH]; constructor; [| exact IH].
    apply (validateField_shape _ _ _ _ _ Hv). }
  destruct (flags_of_field_results _ Hshape) as (flags & Hflags & Hiff).
  rewrite Hflags in H. simpl in H. injection H as <-.
  rewrite <- Hiff. destruct (includes_false flags); split;
    try reflexivity; try discriminate.
Qed.
Lemma flags_of_error_maps (l : list rel) :
  Forall (fun e => e = RUndefined \/
                   exists errors, e = RMap errors /\
                                  Forall (fun entry => is_node (snd entry)) errors) l ->
  exists flags, mapM not_or_isValid l = Ok flags /\ includes_false flags = false.
Proof.
  induction 1 as [| x l Hx _ (flags & Hf & Hnone)]; simpl.
  - exists []. split; reflexivity.
  - destruct Hx as [-> | (errors & -> & Hnodes)]; simpl; rewrite Hf; simpl.
    + exists (RBool true :: flags). split; [reflexivity | exact Hnone].
    + eexists. split; [reflexivity |]. simpl. rewrite Hnone.
      destruct (lookup "isValid" errors) as [e |] eqn:El; [| reflexivity].
      apply lookup_Some_In in El. rewrite Forall_forall in Hnodes.
      destruct (Hnodes _ El) as (m & r & E). simpl in E. subst e. reflexivity.
Qed.

(** The array branch with Schema elements: whatever the elements and
    their results, the field result is a node, never [undefined]. *)
Lemma validateField_array_of_documents fuel this items d s r :
  def_type d = TArray (TSchema s) ->
  validateField (S fuel) this (VArr items) (Some d) = Ok r ->
  r <> RUndefined.
Proof.
  intros Ht. simpl. unfold validateField_body. rewrite Ht. simpl.
  intros H. apply bind_Ok_inv in H as (related & Hrel & H).
  apply bind_Ok_inv in Hrel as (results & Hres & E). injection E as <-.
  simpl in H.
  assert (Hshape : Forall (fun e => e = RUndefined \/
                             exists errors, e = RMap errors /\
                               Forall (fun entry => is_node (snd entry)) errors) results).
  { apply mapM_Ok_Forall2 in Hres. clear H.
    induction Hres as [| v e vs es Hv _ IH]; constructor; [| exact IH].
    destruct (truthy v); [| injection Hv as <-; left; reflexivity].
    destruct v; try discriminate. simpl in Hv. fold (validate fuel d0) in Hv.
    pose proof Hv as Hv'. unfold validate in Hv'. rewrite validate_body_unfold in Hv'.
    apply bind_Ok_inv in Hv' as (errors & _ & E). injection E as <-.
    right. exists errors. split; [reflexivity |].
    apply (validate_entries_are_nodes _ _ _ Hv). }
  destruct (flags_of_error_maps _ Hshape) as (flags & Hflags & Hnone).
  rewrite Hflags in H. simpl in H. rewrite Hnone in H. injection H as <-.
  discriminate.
Qed.
End ValidityFlag.


Lemma validate_sparse_error_map_witness :
  @validate simple_runtime 1 blank_person =
  Ok (RMap [("name", RNode false ["is required"] RNull);
            ("tags", RNode false ["is required"] RNull)]) /\
  exists errors,
    RMap [("name", RNode false ["is required"] RNull);
          ("tags", RNode false ["is required"] RNull)] = RMap errors /\
    forall name e,
      lookup name errors = Some e <->
      (In name (keys (doc_props blank_person)) /\
       @validateField simple_runtime 1 blank_person
                      (@read simple_runtime blank_person name)
                      (lookup name (schema_fields (doc_schema blank_person))) = Ok e /\
       e <> RUndefined).
Proof.
  split; [reflexivity |].
  apply (proj2 (proj2 (@validate_sparse_error_map simple_runtime)) 1 blank_person).
  reflexivity.
Defined.


(** C1. The array branch on concrete fields of type ['String'] carrying
    the rule [presence]: the array [["a"]], whose only element is valid
    and whose own messages are empty, is reported invalid, and so is the
    empty array; the array [[null]], whose element fails [presence], is
    reported valid. *)
Theorem validateField_array_polarity (fuel : nat) (this : document) :
  @validateField simple_runtime (S (S fuel)) this (VArr [VStr "a"]) (Some tags_definition)
  = Ok (RNode false [] (RArr [RUndefined])) /\
  @validateField simple_runtime (S fuel) this (VArr []) (Some tags_definition)
  = Ok (RNode false [] (RArr [])) /\
  @validateField simple_runtime (S (S fuel)) this (VNull) (Some tags_definition)
  = Ok (RNode false ["is required"] RNull) /\
  @validateField simple_runtime (S (S fuel)) this (VArr [VNull]) (Some tags_definition)
  = Ok RUndefined.
Proof. repeat split; reflexivity. Qed.


(** C2. The mapping branch on a concrete field: the field [child] holds
    a nested document without fields, its own rule [absence] yields the
    message "must be blank", and still the field result is [undefined]
    and the whole document validates to the empty error map. *)
Theorem validateField_nested_drops_messages (fuel : nat) :
  @new_Document simple_runtime (S (S fuel)) (TSchema parent_schema)
                (VObj [("child", VObj [])]) = Ok parent_with_child /\
  @run_rules simple_runtime parent_with_child (VDoc (Doc empty_schema []))
             (def_validations child_definition) = ["must be blank"] /\
  @validateField simple_runtime (S fuel) parent_with_child
                 (VDoc (Doc empty_schema [])) (Some child_definition) = Ok RUndefined /\
  @validate simple_runtime (S fuel) parent_with_child = Ok (RMap []).
Proof. repeat split; reflexivity. Qed.


(** C3. A relaxed document populated with the undeclared key [extra]
    owns that key, and [validate()] on it does not resolve: the
    definition looked up for [extra] is [undefined] and its
    destructuring in [validateField] throws a TypeError. *)
Theorem validate_undeclared_field_throws {RT : Runtime} (fuel : nat) :
  new_Document (S fuel) (TSchema relaxed_schema) (VObj [("extra", VNum 1)])
  = Ok relaxed_extra /\
  lookup "extra" (schema_fields (doc_schema relaxed_extra)) = None /\
  validate (S fuel) relaxed_extra
  = Throw (JsTypeError "Cannot destructure property 'type' of undefined").
Proof. repeat split; reflexivity. Qed.


(** ** Assignment, definition, population, purge and clear *)

Section AssocMore.
Context {A : Type}.
Implicit Types (l : list (string * A)) (k : string) (a : A).

Lemma set_entry_twice k a b l : set_entry k a (set_entry k b l) = set_entry k a l.
Proof.
  induction l as [| [k' a'] l IH]; simpl.
  - rewrite String.eqb_refl. reflexivity.
  - destruct (String.eqb k k') eqn:E; simpl.
    + rewrite String.eqb_refl. reflexivity.
    + rewrite E. f_equal. exact IH.
Qed.

End AssocMore.

Section MethodFacts.
Context {RT : Runtime}.
Variable construct : ftype -> value -> outcome document.
Implicit Types (this : document) (name : string) (v : value).

Lemma store_twice this name p q :
  store (store this name p) name q = store this name q.
Proof. unfold store. simpl. rewrite set_entry_twice. reflexivity. Qed.

Lemma setter_unfold this name defn v :
  setter construct this name defn v =
  (c <- castValue construct (normalize v) defn ;;
   Ok (store this name
             (PAccessor defn (after_set defn c (store this name (PAccessor defn c)))))).
Proof.
  unfold setter, after_set. fold (normalize v).
  destruct (castValue construct (normalize v) defn) as [c | e |]; simpl; try reflexivity.
  destruct (def_set defn) as [s |]; [| reflexivity].
  rewrite store_twice. reflexivity.
Qed.

(** The three ways [this[name] = v] can succeed. *)
Lemma assign_cases this name v this' :
  assign construct this name v = Ok this' ->
  (exists defn data0 c,
      lookup name (doc_props this) = Some (PAccessor defn data0) /\
      castValue construct (normalize v) defn = Ok c /\
      this' = store this name
                    (PAccessor defn (after_set defn c (store this name (PAccessor defn c))))) \/
  (exists v0,
      lookup name (doc_props this) = Some (PData v0) /\
      this' = store this name (PData v)) \/
  (lookup name (doc_props this) = None /\ reserved name = false /\
   this' = store this name (PData v)).
Proof.
  unfold assign. destruct (lookup name (doc_props this)) as [[defn data0 | v0] |] eqn:E.
  - rewrite setter_unfold. intros H. apply bind_Ok_inv in H as (c & Hc & H).
    injection H as <-. left. exists defn, data0, c. auto.
  - intros H. injection H as <-. right. left. exists v0. auto.
  - destruct (reserved name) eqn:R; [discriminate |].
    intros H. injection H as <-. right. right. auto.
Qed.

Lemma assign_store this name v this' :
  assign construct this name v = Ok this' ->
  exists p, this' = store this name p /\
            (is_accessor p <-> exists q, lookup name (doc_props this) = Some q /\ is_accessor q).
Proof.
  intros H. destruct (assign_cases _ _ _ _ H)
    as [(defn & d0 & c & Hl & _ & ->) | [(v0 & Hl & ->) | (Hl & _ & ->)]];
    eexists; (split; [reflexivity |]); rewrite Hl.
  - split; intros _; [eexists; split; [reflexivity |] |]; do 2 eexists; reflexivity.
  - split.
    + intros (? & ? & ?). discriminate.
    + intros (q & Hq & (? & ? & ?)). injection Hq as <-. discriminate.
  - split.
    + intros (? & ? & ?). discriminate.
    + intros (q & Hq & _). discriminate.
Qed.

Lemma assign_schema this name v this' :
  assign construct this name v = Ok this' -> doc_schema this' = doc_schema this.
Proof. intros H. destruct (assign_store _ _ _ _ H) as (p & -> & _). reflexivity. Qed.

Lemma assign_in_keys this name v this' k :
  assign construct this name v = Ok this' ->
  (In k (keys (doc_props this')) <-> k = name \/ In k (keys (doc_props this))).
Proof.
  intros H. destruct (assign_store _ _ _ _ H) as (p & -> & _).
  apply in_keys_set_entry.
Qed.

Lemma assign_invariant this name v this' :
  accessor_invariant this ->
  In name (keys (doc_props this)) ->
  assign construct this name v = Ok this' ->
  accessor_invariant this'.
Proof.
  intros Hinv Hin H. destruct (assign_store _ _ _ _ H) as (p & -> & Hp).
  apply Forall_set_entry; [| exact Hinv]. simpl. apply Hp.
  destruct (in_keys_lookup _ _ Hin) as (q & Hq). exists q. split; [exact Hq |].
  unfold accessor_invariant in Hinv. rewrite Forall_forall in Hinv.
  apply (Hinv (name, q)), lookup_Some_In, Hq.
Qed.
End MethodFacts.

Section ShapeFacts.
Context {RT : Runtime}.
Variable construct : ftype -> value -> outcome document.
Implicit Types (this : document) (name : string) (v : value).

(** *** purge *)

Lemma purgeFields_schema names this :
  doc_schema (purgeFields this names) = doc_schema this.
Proof.
  revert this. induction names as [| n names IH]; simpl; intros this; [reflexivity |].
  unfold purgeFields in *. simpl. rewrite IH. reflexivity.
Qed.

Lemma purgeFields_covering names this :
  (forall k, In k (keys (doc_props this)) -> In k names) ->
  doc_props (purgeFields this names) = [].
Proof.
  revert this. induction names as [| n names IH]; intros this Hcover.
  - simpl. destruct (doc_props this) as [| [k p] l]; [reflexivity |].
    exfalso. apply (Hcover k). left. reflexivity.
  - unfold purgeFields in *. simpl. apply IH. intros k Hk.
    unfold purgeField in Hk. simpl in Hk. rewrite keys_remove_key in Hk.
    apply filter_In in Hk as (Hk & Hne).
    destruct (Hcover k Hk) as [<- | H]; [| exact H].
    rewrite String.eqb_refl in Hne. discriminate.
Qed.

Lemma purge_props this : doc_props (purge this) = [].
Proof. unfold purge. apply purgeFields_covering. auto. Qed.

Lemma purge_schema this : doc_schema (purge this) = doc_schema this.
Proof. apply purgeFields_schema. Qed.

Lemma purge_eq this : purge this = Doc (doc_schema this) [].
Proof.
  pose proof (purge_props this) as Hp. pose proof (purge_schema this) as Hs.
  destruct (purge this) as [s l]. simpl in *. subst. reflexivity.
Qed.

(** *** defineField, define *)

Lemma defineField_unfold this name defn :
  defineField construct this name defn =
  if reserved name
  then Throw (JsTypeError ("Cannot redefine property: " ++ name))
  else
    c <- castValue construct
           (normalize (default_of defn (store this name (PAccessor defn VUndefined))))
           defn ;;
    Ok (store this name
              (PAccessor defn (after_set defn c (store this name (PAccessor defn c))))).
Proof.
  unfold defineField. destruct (reserved name); [reflexivity |].
  set (this1 := store this name (PAccessor defn VUndefined)).
  assert (Hassign : forall v,
             assign construct this1 name v =
             (c <- castValue construct (normalize v) defn ;;
              Ok (store this name
                        (PAccessor defn
                                   (after_set defn c (store this name (PAccessor defn c))))))).
  { intros v. unfold assign.
    replace (lookup name (doc_props this1)) with (Some (PAccessor defn VUndefined))
      by (symmetry; apply lookup_set_entry_same).
    rewrite setter_unfold.
    destruct (castValue construct (normalize v) defn) as [c | e |]; simpl;
      try reflexivity.
    unfold this1. rewrite !store_twice. reflexivity. }
  unfold default_of. destruct (def_default defn); apply Hassign.
Qed.

Lemma defineField_store this name defn this' :
  defineField construct this name defn = Ok this' ->
  exists data, this' = store this name (PAccessor defn data).
Proof.
  rewrite defineField_unfold. destruct (reserved name); [discriminate |].
  intros H. apply bind_Ok_inv in H as (c & _ & H). injection H as <-.
  eexists. reflexivity.
Qed.

Lemma defineField_invariant this name defn this' :
  accessor_invariant this ->
  defineField construct this name defn = Ok this' ->
  accessor_invariant this'.
Proof.
  intros Hinv H. destruct (defineField_store _ _ _ _ H) as (data & ->).
  apply Forall_set_entry; [| exact Hinv]. simpl. exists defn, data. reflexivity.
Qed.

Lemma defineFields_invariant fields this this' :
  accessor_invariant this ->
  defineFields construct this fields = Ok this' ->
  accessor_invariant this'.
Proof.
  unfold defineFields. revert this.
  induction fields as [| [n d] fields IH]; simpl; intros this Hinv H.
  - injection H as <-. exact Hinv.
  - apply bind_Ok_inv in H as (this1 & H1 & H).
    apply (IH this1); [| exact H]. apply (defineField_invariant _ _ _ _ Hinv H1).
Qed.

Lemma defineFields_frame fields this this' :
  defineFields construct this fields = Ok this' ->
  doc_schema this' = doc_schema this /\
  forall k, In k (keys (doc_props this')) <->
            In k (keys (doc_props this)) \/ In k (keys fields).
Proof.
  unfold defineFields. revert this.
  induction fields as [| [n d] fields IH]; simpl; intros this H.
  - injection H as <-. split; [reflexivity |]. tauto.
  - apply bind_Ok_inv in H as (this1 & H1 & H).
    destruct (IH _ H) as (Hs & Hk).
    destruct (defineField_store _ _ _ _ H1) as (data & ->).
    split; [rewrite Hs; reflexivity |].
    intros k. rewrite Hk. simpl. rewrite in_keys_set_entry. intuition congruence.
Qed.

(** *** populate *)

Lemma populateField_unfold this name v :
  populateField construct this name v =
  if admitted (doc_schema this) name then assign construct this name v else Ok this.
Proof.
  unfold populateField, admitted.
  destruct (String.eqb (schema_mode (doc_schema this)) "relaxed"); simpl; reflexivity.
Qed.

Lemma populate_loop_filter entries this :
  foldM (fun this e => populateField construct this (fst e) (snd e)) entries this =
  foldM (fun this e => assign construct this (fst e) (snd e))
        (filter (fun e => admitted (doc_schema this) (fst e)) entries) this.
Proof.
  revert this. induction entries as [| [n v] entries IH]; simpl; intros this; [reflexivity |].
  rewrite populateField_unfold. destruct (admitted (doc_schema this) n) eqn:E; simpl.
  - destruct (assign construct this n v) as [this1 | e |] eqn:Ha; simpl; try reflexivity.
    rewrite IH. rewrite (assign_schema _ _ _ _ _ Ha). reflexivity.
  - apply IH.
Qed.

Lemma assign_loop_keys entries this this' :
  foldM (fun this e => assign construct this (fst e) (snd e)) entries this = Ok this' ->
  doc_schema this' = doc_schema this /\
  forall k, In k (keys (doc_props this')) <->
            In k (keys (doc_props this)) \/ In k (keys entries).
Proof.
  revert this. induction entries as [| [n v] entries IH]; simpl; intros this H.
  - injection H as <-. split; [reflexivity |]. tauto.
  - apply bind_Ok_inv in H as (this1 & H1 & H).
    destruct (IH _ H) as (Hs & Hk).
    split; [rewrite Hs; apply (assign_schema _ _ _ _ _ H1) |].
    intros k. rewrite Hk. rewrite (assign_in_keys _ _ _ _ _ k H1).
    intuition congruence.
Qed.

Lemma assign_loop_invariant entries this this' :
  accessor_invariant this ->
  (forall k, In k (keys entries) -> In k (keys (doc_props this))) ->
  foldM (fun this e => assign construct this (fst e) (snd e)) entries this = Ok this' ->
  accessor_invariant this'.
Proof.
  revert this. induction entries as [| [n v] entries IH]; simpl; intros this Hinv Hsub H.
  - injection H as <-. exact Hinv.
  - apply bind_Ok_inv in H as (this1 & H1 & H).
    apply (IH this1); [| | exact H].
    + apply (assign_invariant _ _ _ _ _ Hinv (Hsub n (or_introl eq_refl)) H1).
    + intros k Hk. apply (assign_in_keys _ _ _ _ _ k H1). right. apply Hsub. right. exact Hk.
Qed.

Lemma in_keys_filter {A : Type} (f : string -> bool) (l : list (string * A)) k :
  In k (keys (filter (fun e => f (fst e)) l)) <-> In k (keys l) /\ f k = true.
Proof.
  unfold keys. rewrite !in_map_iff. split.
  - intros ([k' a] & <- & Hin). apply filter_In in Hin as (Hin & Hf). simpl in *.
    split; [exists (k', a); auto | exact Hf].
  - intros (([k' a] & <- & Hin) & Hf). exists (k', a). split; [reflexivity |].
    apply filter_In. auto.
Qed.
End ShapeFacts.

Section ClearFacts.
Context {RT : Runtime}.
Variable construct : ftype -> value -> outcome document.
Implicit Types (this : document) (name : string) (v : value).

Lemma clear_as_assignments names this :
  foldM (clearField construct) names this =
  foldM (fun this e => assign construct this (fst e) (snd e))
        (map (fun n => (n, VNull)) names) this.
Proof.
  revert this. induction names as [| n names IH]; simpl; intros this; [reflexivity |].
  unfold clearField at 1. destruct (assign construct this n VNull); simpl; auto.
Qed.

Lemma clear_invariant this this' :
  accessor_invariant this ->
  clear construct this = Ok this' ->
  accessor_invariant this'.
Proof.
  unfold clear. rewrite clear_as_assignments. intros Hinv H.
  eapply assign_loop_invariant; [exact Hinv | | exact H].
  intros k Hk. unfold keys in Hk. rewrite map_map in Hk. simpl in Hk.
  rewrite map_id in Hk. exact Hk.
Qed.

Lemma cleared_again p p1 p2 : cleared p p1 -> cleared p1 p2 -> cleared p p2.
Proof.
  destruct p as [defn data | v]; simpl.
  - intros (mid & ->). simpl. auto.
  - intros ->. simpl. auto.
Qed.

(** The caster maps [null] to [null]. *)
Hypothesis cast_null : forall t h, cast VNull t h = Ok VNull.

Lemma clearField_own this name p :
  lookup name (doc_props this) = Some p ->
  exists p', clearField construct this name = Ok (store this name p') /\ cleared p p'.
Proof.
  intros Hl. unfold clearField, assign. rewrite Hl.
  destruct p as [defn data | v].
  - rewrite setter_unfold. unfold castValue. simpl. rewrite cast_null. simpl.
    eexists. split; [reflexivity |]. simpl. eexists. reflexivity.
  - eexists. split; reflexivity.
Qed.

Lemma clear_loop names :
  forall this,
    (forall n, In n names -> In n (keys (doc_props this))) ->
    exists this',
      foldM (clearField construct) names this = Ok this' /\
      doc_schema this' = doc_schema this /\
      keys (doc_props this') = keys (doc_props this) /\
      forall k p,
        lookup k (doc_props this) = Some p ->
        exists p',
          lookup k (doc_props this') = Some p' /\
          (In k names -> cleared p p') /\
          (~ In k names -> p' = p).
Proof.
  induction names as [| n names IH]; intros this Hown.
  - exists this. simpl. repeat split; try reflexivity.
    intros k p Hl. exists p. tauto.
  - destruct (in_keys_lookup _ _ (Hown n (or_introl eq_refl))) as (pn & Hn).
    destruct (clearField_own _ _ _ Hn) as (pn' & Hclear & Hpn).
    set (this1 := store this n pn') in *.
    assert (Hkeys1 : keys (doc_props this1) = keys (doc_props this)).
    { apply keys_set_entry_present. apply (lookup_Some_in_keys _ _ _ Hn). }
    destruct (IH this1) as (this' & Hloop & Hs & Hkeys & Hprops).
    { intros m Hm. rewrite Hkeys1. apply Hown. right. exact Hm. }
    exists this'. simpl. rewrite Hclear. simpl.
    split; [exact Hloop |]. split; [exact Hs |]. split; [congruence |].
    intros k p Hl. destruct (string_dec k n) as [-> | Hne].
    + rewrite Hn in Hl. injection Hl as <-.
      destruct (Hprops n pn') as (p' & Hl' & Hin & Hout).
      { apply lookup_set_entry_same. }
      exists p'. split; [exact Hl' |]. split; [| intros H; exfalso; apply H; left; reflexivity].
      intros _. destruct (in_dec string_dec n names) as [Hlater | Hnot].
      * apply (cleared_again _ _ _ Hpn (Hin Hlater)).
      * rewrite (Hout Hnot). exact Hpn.
    + destruct (Hprops k p) as (p' & Hl' & Hin & Hout).
      { unfold this1. simpl. rewrite lookup_set_entry_other by exact Hne. exact Hl. }
      exists p'. split; [exact Hl' |]. split.
      * intros [H | H]; [congruence | auto].
      * intros H. apply Hout. intros H'. apply H. right. exact H'.
Qed.
End ClearFacts.

Section ConstructorFacts.
Context {RT : Runtime}.
Variable construct : ftype -> value -> outcome document.
Implicit Types (this : document) (name : string) (v : value).

Lemma constructor_body_schema pre s data :
  constructor_body construct pre (TSchema s) data =
  (this <- define construct (Doc s []) ;; populate construct this data).
Proof. unfold constructor_body. rewrite purge_eq. reflexivity. Qed.

Lemma constructor_body_not_schema pre t data :
  is_schema t = false ->
  constructor_body construct pre t data =
  Throw (JsError "Document expects schema to be an instance of Schema class").
Proof. destruct t; simpl; intros H; try reflexivity. discriminate. Qed.

Lemma define_fresh s this :
  define construct (Doc s []) = Ok this ->
  doc_schema this = s /\
  accessor_invariant this /\
  forall k, In k (keys (doc_props this)) <-> In k (keys (schema_fields s)).
Proof.
  unfold define. simpl. intros H.
  destruct (defineFields_frame _ _ _ _ H) as (Hs & Hk).
  split; [exact Hs |]. split.
  - eapply defineFields_invariant; [| exact H]. constructor.
  - intros k. rewrite Hk. simpl. tauto.
Qed.

Lemma defineFields_lookup_outside fields this this' name :
  ~ In name (keys fields) ->
  defineFields construct this fields = Ok this' ->
  lookup name (doc_props this') = lookup name (doc_props this).
Proof.
  unfold defineFields. revert this.
  induction fields as [| [n d] fields IH]; simpl; intros this Hout H.
  - injection H as <-. reflexivity.
  - apply bind_Ok_inv in H as (this1 & H1 & H).
    rewrite (IH this1) by tauto.
    destruct (defineField_store _ _ _ _ _ H1) as (data & ->). simpl.
    apply lookup_set_entry_other. intros ->. apply Hout. left. reflexivity.
Qed.

(** One accessor per schema field, holding the default after the
    setter has cast it and run the custom [set] hook. *)
Lemma defineFields_default fields this this' name defn :
  NoDup (keys fields) ->
  lookup name fields = Some defn ->
  defineFields construct this fields = Ok this' ->
  exists mid0 c mid,
    castValue construct (normalize (default_of defn mid0)) defn = Ok c /\
    lookup name (doc_props this') = Some (PAccessor defn (after_set defn c mid)).
Proof.
  revert this. induction fields as [| [n d] fields IH]; simpl; intros this Hnd Hl H.
  - discriminate.
  - inversion Hnd as [| ? ? Hnotin Hnd']; subst.
    unfold defineFields in H. simpl in H.
    apply bind_Ok_inv in H as (this1 & H1 & H). fold (defineFields construct this1 fields) in H.
    destruct (String.eqb name n) eqn:E.
    + apply String.eqb_eq in E. subst n. injection Hl as ->.
      rewrite (defineFields_lookup_outside _ _ _ _ Hnotin H).
      rewrite defineField_unfold in H1. destruct (reserved name); [discriminate |].
      apply bind_Ok_inv in H1 as (c & Hc & H1). injection H1 as <-.
      do 3 eexists. split; [exact Hc |]. simpl. apply lookup_set_entry_same.
    + apply (IH this1 Hnd' Hl H).
Qed.
End ConstructorFacts.

Lemma new_Document_on_schema {RT : Runtime} fuel pre s data :
  new_Document_on (S fuel) pre (TSchema s) data =
  (this <- define (new_Document_on fuel []) (Doc s []) ;;
   populate (new_Document_on fuel []) this data).
Proof. simpl. apply constructor_body_schema. Qed.

(** Construction never consults the rule executor. *)
Lemma new_Document_on_rules_irrelevant c rr rr' h p fuel :
  forall pre t data,
    @new_Document_on (Build_Runtime c rr h p) fuel pre t data =
    @new_Document_on (Build_Runtime c rr' h p) fuel pre t data.
Proof.
  induction fuel as [| fuel IH]; intros pre t data; [reflexivity |].
  simpl.
  assert (E : @new_Document_on (Build_Runtime c rr h p) fuel [] =
              @new_Document_on (Build_Runtime c rr' h p) fuel []).
  { extensionality t'. extensionality data'. apply IH. }
  rewrite E. reflexivity.
Qed.

Lemma populate_object {RT : Runtime} construct this entries :
  populate construct this (VObj entries) =
  foldM (fun this e => populateField construct this (fst e) (snd e)) entries this.
Proof. reflexivity. Qed.

Lemma populate_strict_invariant {RT : Runtime} construct this data this' :
  accessor_invariant this ->
  (forall k, admitted (doc_schema this) k = true -> In k (keys data) ->
             In k (keys (doc_props this))) ->
  populate construct this (VObj data) = Ok this' ->
  accessor_invariant this'.
Proof.
  intros Hinv Hown H. rewrite populate_object, populate_loop_filter in H.
  eapply assign_loop_invariant; [exact Hinv | | exact H].
  intros k Hk. apply in_keys_filter in Hk as (Hk & Ha). apply Hown; assumption.
Qed.

(** [validate()] enumerates the keys the document has now: after
    [purge()] there is none left to validate. *)
Lemma validate_after_purge {RT : Runtime} (fuel : nat) (this : document) :
  validate fuel (purge this) = Ok (RMap []).
Proof. rewrite purge_eq. apply validate_no_fields. Qed.

(** ** Population, the accessor invariant, assignment and clear *)

Lemma filter_all {A : Type} (f : A -> bool) (l : list A) :
  (forall a, f a = true) -> filter f l = l.
Proof.
  intros H. induction l as [| a l IH]; simpl; [reflexivity |].
  rewrite H, IH. reflexivity.
Qed.

(** C6. In a mode other than [relaxed], [populate] assigns, in input
    order, exactly the input entries whose key is a key of
    [Schema.fields]: such a key is present afterwards, and for a key
    that is not in [Schema.fields] the document has it afterwards only
    if it had it before.  In [relaxed] mode [populate] assigns every
    input entry, and afterwards the keys of the document are the former
    ones and all those of the input. *)
Theorem populate_mode_policy {RT : Runtime}
        (construct : ftype -> value -> outcome document)
        (this : document) (entries : list (string * value)) :
  let s := doc_schema this in
  let declared :=
      fun e : string * value => existsb (String.eqb (fst e)) (keys (schema_fields s)) in
  (schema_mode s <> "relaxed" ->
   populate construct this (VObj entries) =
   foldM (fun this e => assign construct this (fst e) (snd e))
         (filter declared entries) this /\
   forall this',
     populate construct this (VObj entries) = Ok this' ->
     forall k,
       (In k (keys entries) -> In k (keys (schema_fields s)) ->
        In k (keys (doc_props this'))) /\
       (~ In k (keys (schema_fields s)) ->
        (In k (keys (doc_props this')) <-> In k (keys (doc_props this))))) /\
  (schema_mode s = "relaxed" ->
   populate construct this (VObj entries) =
   foldM (fun this e => assign construct this (fst e) (snd e)) entries this /\
   forall this',
     populate construct this (VObj entries) = Ok this' ->
     forall k,
       In k (keys (doc_props this')) <->
       In k (keys (doc_props this)) \/ In k (keys entries)).
Proof.
  intros s declared. rewrite populate_object, populate_loop_filter. fold s. split.
  - intros Hmode. apply String.eqb_neq in Hmode.
    assert (E : filter (fun e => admitted s (fst e)) entries = filter declared entries).
    { apply filter_ext. intros e. unfold admitted. rewrite Hmode. reflexivity. }
    rewrite E. split; [reflexivity |].
    intros this' H k. destruct (assign_loop_keys _ _ _ _ H) as (_ & Hk).
    rewrite Hk. unfold declared.
    rewrite (in_keys_filter (fun n => existsb (String.eqb n) (keys (schema_fields s)))).
    rewrite existsb_eqb_in.
    split; [tauto |]. intros Hno. tauto.
  - intros Hmode. apply String.eqb_eq in Hmode.
    assert (E : filter (fun e => admitted s (fst e)) entries = entries).
    { apply filter_all. intros e. unfold admitted. rewrite Hmode. reflexivity. }
    rewrite E. split; [reflexivity |].
    intros this' H k. destruct (assign_loop_keys _ _ _ _ H) as (_ & Hk). apply Hk.
Qed.

Lemma populate_mode_policy_witness :
  schema_mode (doc_schema blank_person) <> "relaxed" /\
  schema_mode (doc_schema relaxed_empty) = "relaxed" /\
  (forall this',
      @populate simple_runtime (@new_Document simple_runtime 1) blank_person
                (VObj [("name", VStr "Ann"); ("extra", VNum 1)]) = Ok this' ->
      forall k,
        (In k ["name"; "extra"] -> In k ["name"; "tags"] ->
         In k (keys (doc_props this'))) /\
        (~ In k ["name"; "tags"] ->
         (In k (keys (doc_props this')) <-> In k ["name"; "tags"]))) /\
  (forall this',
      @populate simple_runtime (@new_Document simple_runtime 1) relaxed_empty
                (VObj [("extra", VNum 1)]) = Ok this' ->
      forall k, In k (keys (doc_props this')) <-> In k [] \/ In k ["extra"]).
Proof.
  assert (Hstrict : schema_mode (doc_schema blank_person) <> "relaxed") by discriminate.
  assert (Hrelaxed : schema_mode (doc_schema relaxed_empty) = "relaxed") by reflexivity.
  split; [exact Hstrict |]. split; [exact Hrelaxed |]. split.
  - exact (proj2 (proj1 (@populate_mode_policy simple_runtime (@new_Document simple_runtime 1) blank_person
                           [("name", VStr "Ann"); ("extra", VNum 1)]) Hstrict)).
  - exact (proj2 (proj2 (@populate_mode_policy simple_runtime (@new_Document simple_runtime 1) relaxed_empty
                           [("extra", VNum 1)]) Hrelaxed)).
Defined.

(** C7, as the code has it.  The invariant "every enumerable own key is
    an accessor installed by [defineField], holding the backing value in
    its own slot" holds after [purge], is preserved by [defineField],
    [define] and [clear], by an assignment to a key the document has,
    and by [populate] whenever every key it assigns is a key the
    document has; a document constructed in a mode other than [relaxed]
    satisfies it. *)
Theorem accessor_invariant_preserved {RT : Runtime}
        (construct : ftype -> value -> outcome document) :
  (forall this, accessor_invariant (purge this)) /\
  (forall this name defn this',
      accessor_invariant this ->
      defineField construct this name defn = Ok this' ->
      accessor_invariant this') /\
  (forall this this',
      accessor_invariant this ->
      define construct this = Ok this' ->
      accessor_invariant this') /\
  (forall this this',
      accessor_invariant this ->
      clear construct this = Ok this' ->
      accessor_invariant this') /\
  (forall this name v this',
      accessor_invariant this ->
      In name (keys (doc_props this)) ->
      assign construct this name v = Ok this' ->
      accessor_invariant this') /\
  (forall this entries this',
      accessor_invariant this ->
      (forall k, admitted (doc_schema this) k = true -> In k (keys entries) ->
                 In k (keys (doc_props this))) ->
      populate construct this (VObj entries) = Ok this' ->
      accessor_invariant this') /\
  (forall fuel pre s data d,
      schema_mode s <> "relaxed" ->
      new_Document_on fuel pre (TSchema s) data = Ok d ->
      accessor_invariant d).
Proof.
  repeat split.
  - intros this. unfold accessor_invariant. rewrite purge_props. constructor.
  - intros this name defn this'. apply defineField_invariant.
  - intros this this'. apply defineFields_invariant.
  - intros this this'. apply clear_invariant.
  - intros this name v this'. apply assign_invariant.
  - intros this entries this'. apply populate_strict_invariant.
  - intros fuel pre s data d Hmode H. destruct fuel as [| fuel]; [discriminate |].
    rewrite new_Document_on_schema in H. apply bind_Ok_inv in H as (this & Hdef & H).
    destruct (define_fresh _ _ _ Hdef) as (Hs & Hinv & Hk).
    assert (Hobj : forall entries,
               populate (new_Document_on fuel []) this (VObj entries) = Ok d ->
               accessor_invariant d).
    { intros entries. apply populate_strict_invariant; [exact Hinv |].
      intros k Ha _. apply Hk. rewrite Hs in Ha. unfold admitted in Ha.
      apply String.eqb_neq in Hmode. rewrite Hmode in Ha. simpl in Ha.
      apply existsb_eqb_in in Ha. exact Ha. }
    destruct data; try discriminate.
    + apply (Hobj []). exact H.
    + apply (Hobj entries). exact H.
Qed.

Lemma accessor_invariant_preserved_witness :
  accessor_invariant blank_person /\
  In "name" (keys (doc_props blank_person)) /\
  @assign simple_runtime (@new_Document simple_runtime 1) blank_person "name" (VStr "Ann")
  = Ok (Doc person_schema
            [("name", PAccessor name_definition (VStr "Ann"));
             ("tags", PAccessor tags_definition VNull)]) /\
  accessor_invariant
    (Doc person_schema
         [("name", PAccessor name_definition (VStr "Ann"));
          ("tags", PAccessor tags_definition VNull)]).
Proof.
  assert (Hinv : accessor_invariant blank_person).
  { repeat constructor; simpl; do 2 eexists; reflexivity. }
  assert (Hin : In "name" (keys (doc_props blank_person))) by (left; reflexivity).
  split; [exact Hinv |]. split; [exact Hin |]. split; [reflexivity |].
  exact (proj1 (proj2 (proj2 (proj2 (proj2
           (@accessor_invariant_preserved simple_runtime (@new_Document simple_runtime 1))))))
           blank_person "name" (VStr "Ann") _ Hinv Hin eq_refl).
Defined.

(** C7 fails as stated: [populate({extra: 1})] on a relaxed document
    without fields succeeds and leaves the own enumerable key [extra] as
    a plain data property. *)
Lemma relaxed_populate_breaks_invariant :
  accessor_invariant relaxed_empty /\
  @populate simple_runtime (@new_Document simple_runtime 1) relaxed_empty (VObj [("extra", VNum 1)])
  = Ok relaxed_extra /\
  ~ accessor_invariant relaxed_extra.
Proof.
  split; [constructor |]. split; [reflexivity |].
  intros H. inversion H as [| entry l (defn & data & Hp) _]; subst.
  simpl in Hp. discriminate.
Qed.

Lemma read_lookup {RT : Runtime} (this : document) (name : string) (p : property) :
  lookup name (doc_props this) = Some p -> read this name = read_property this p.
Proof. unfold read. intros ->. reflexivity. Qed.

(** C8. On a field without custom [get] and [set] hook, an assignment
    of [v] succeeds exactly when the cast of [v] (of [null] when [v] is
    [undefined]) to the declared type does, and the field then reads
    back as the cast value; assigning [undefined] is assigning [null]. *)
Theorem assign_reads_back_cast {RT : Runtime}
        (construct : ftype -> value -> outcome document)
        (this : document) (name : string) (defn : definition) (data0 v : value) :
  lookup name (doc_props this) = Some (PAccessor defn data0) ->
  def_get defn = None ->
  def_set defn = None ->
  (forall c,
      cast (normalize v) (def_type defn) (schema_hook construct (def_type defn)) = Ok c ->
      exists this', assign construct this name v = Ok this' /\ read this' name = c) /\
  (forall this',
      assign construct this name v = Ok this' ->
      exists c,
        cast (normalize v) (def_type defn) (schema_hook construct (def_type defn)) = Ok c /\
        read this' name = c) /\
  assign construct this name VUndefined = assign construct this name VNull.
Proof.
  intros Hl Hget Hset.
  assert (Hassign : forall w,
             assign construct this name w =
             (c <- castValue construct (normalize w) defn ;;
              Ok (store this name (PAccessor defn c)))).
  { intros w. unfold assign. rewrite Hl, setter_unfold. unfold after_set.
    rewrite Hset. reflexivity. }
  assert (Hread : forall c, read (store this name (PAccessor defn c)) name = c).
  { intros c. rewrite (read_lookup _ _ (PAccessor defn c)).
    - simpl. unfold getter. rewrite Hget. reflexivity.
    - simpl. apply lookup_set_entry_same. }
  repeat split.
  - intros c Hc. eexists. rewrite Hassign. unfold castValue. rewrite Hc. simpl.
    split; [reflexivity | apply Hread].
  - intros this' H. rewrite Hassign in H. apply bind_Ok_inv in H as (c & Hc & H).
    injection H as <-. exists c. split; [exact Hc | apply Hread].
  - rewrite !Hassign. reflexivity.
Qed.

Lemma assign_reads_back_cast_witness :
  lookup "name" (doc_props blank_person) = Some (PAccessor name_definition VNull) /\
  def_get name_definition = None /\
  def_set name_definition = None /\
  exists this',
    @assign simple_runtime (@new_Document simple_runtime 1) blank_person "name" (VNum 5)
    = Ok this' /\
    @read simple_runtime this' "name" = VNum 5.
Proof.
  repeat split.
  exact (proj1 (@assign_reads_back_cast simple_runtime (@new_Document simple_runtime 1)
                  blank_person "name" name_definition VNull (VNum 5)
                  eq_refl eq_refl eq_refl) (VNum 5) eq_refl).
Defined.

(** C9, as the code has it.  With a caster that maps [null] to [null],
    [clear()] succeeds, is the assignment of [null] to each own key in
    turn, and keeps the list of own keys; afterwards a plain property
    holds [null] and an accessor holds [null], or what its custom [set]
    hook made of [null], in its slot, and reads back as that value, or
    as what its custom [get] hook makes of that value.  [purge()] leaves
    no enumerable own key. *)
Theorem clear_resets_purge_removes {RT : Runtime}
        (construct : ftype -> value -> outcome document)
        (cast_null : forall t h, cast VNull t h = Ok VNull)
        (this : document) :
  (exists this',
      clear construct this = Ok this' /\
      clear construct this =
      foldM (fun this name => assign construct this name VNull)
            (keys (doc_props this)) this /\
      keys (doc_props this') = keys (doc_props this) /\
      (forall name v0,
          lookup name (doc_props this) = Some (PData v0) ->
          read this' name = VNull) /\
      (forall name defn data0,
          lookup name (doc_props this) = Some (PAccessor defn data0) ->
          exists data,
            lookup name (doc_props this') = Some (PAccessor defn data) /\
            (def_set defn = None -> data = VNull) /\
            (forall s, def_set defn = Some s -> exists mid, data = apply_hook s VNull mid) /\
            (def_get defn = None -> read this' name = data) /\
            (forall g, def_get defn = Some g -> read this' name = apply_hook g data this'))) /\
  doc_props (purge this) = [].
Proof.
  split; [| apply purge_props].
  destruct (clear_loop construct cast_null (keys (doc_props this)) this)
    as (this' & Hclear & _ & Hkeys & Hprops); [auto |].
  exists this'. split; [exact Hclear |]. split; [reflexivity |]. split; [exact Hkeys |].
  split.
  - intros name v0 Hl. destruct (Hprops _ _ Hl) as (p' & Hl' & Hin & _).
    rewrite (read_lookup _ _ _ Hl').
    rewrite (Hin (lookup_Some_in_keys _ _ _ Hl)). reflexivity.
  - intros name defn data0 Hl. destruct (Hprops _ _ Hl) as (p' & Hl' & Hin & _).
    destruct (Hin (lookup_Some_in_keys _ _ _ Hl)) as (mid & ->).
    eexists. split; [exact Hl' |]. unfold after_set.
    rewrite (read_lookup _ _ _ Hl'). simpl. unfold getter, after_set.
    repeat split.
    + intros ->. reflexivity.
    + intros s ->. exists mid. reflexivity.
    + intros ->. reflexivity.
    + intros g ->. reflexivity.
Qed.

Lemma simple_cast_null (t : ftype) (h : value -> outcome value) :
  @cast simple_runtime VNull t h = Ok VNull.
Proof. destruct t; reflexivity. Qed.

Lemma clear_resets_purge_removes_witness :
  (forall t h, @cast simple_runtime VNull t h = Ok VNull) /\
  exists this',
    @clear simple_runtime (@new_Document simple_runtime 1) blank_person = Ok this' /\
    keys (doc_props this') = ["name"; "tags"].
Proof.
  split; [exact simple_cast_null |].
  destruct (proj1 (@clear_resets_purge_removes simple_runtime
                     (@new_Document simple_runtime 1) simple_cast_null blank_person))
    as (this' & Hclear & _ & Hkeys & _).
  exists this'. split; [exact Hclear | exact Hkeys].
Defined.

(** C9 fails as stated: the field [label] declares a custom [get] hook
    and no [set] hook; after [clear()] it does not read back as
    [null]. *)
Lemma clear_with_getter_not_null :
  lookup "label" (doc_props labelled) = Some (PAccessor label_definition VNull) /\
  def_set label_definition = None /\
  @clear simple_runtime (@new_Document simple_runtime 1) labelled = Ok labelled /\
  @read simple_runtime labelled "label" = VStr "fixed" /\
  @read simple_runtime labelled "label" <> VNull.
Proof. repeat split; try reflexivity. discriminate. Qed.

(** C5, as the code has it.  Construction with an argument that is not a
    Schema throws a plain [Error] (not a TypeError).  With a Schema the
    constructor purges the own enumerable keys the object already has,
    then defines, then populates: the result is that of populating the
    data into the document that [define] builds from the empty object.
    [define] installs an accessor for the names of [Schema.fields] and
    for nothing else, each holding its default as left by the setter
    (cast, then the custom [set] hook).  The rule executor takes no part
    in the result: no validation runs. *)
Theorem constructor_phases :
  (forall (RT : Runtime) fuel pre t data,
      is_schema t = false ->
      new_Document_on (S fuel) pre t data =
      Throw (JsError "Document expects schema to be an instance of Schema class")) /\
  (forall (RT : Runtime) fuel pre s data,
      purge (Doc s pre) = Doc s [] /\
      new_Document_on (S fuel) pre (TSchema s) data =
      (this <- define (new_Document_on fuel []) (purge (Doc s pre)) ;;
       populate (new_Document_on fuel []) this data)) /\
  (forall (RT : Runtime) construct s this,
      define construct (Doc s []) = Ok this ->
      (forall k, In k (keys (doc_props this)) <-> In k (keys (schema_fields s))) /\
      (forall name defn,
          NoDup (keys (schema_fields s)) ->
          lookup name (schema_fields s) = Some defn ->
          exists mid0 c mid,
            castValue construct (normalize (default_of defn mid0)) defn = Ok c /\
            lookup name (doc_props this) = Some (PAccessor defn (after_set defn c mid)))) /\
  (forall c rr rr' h p fuel pre t data,
      @new_Document_on (Build_Runtime c rr h p) fuel pre t data =
      @new_Document_on (Build_Runtime c rr' h p) fuel pre t data).
Proof.
  split; [| split; [| split]].
  - intros RT fuel pre t data H. simpl. apply constructor_body_not_schema, H.
  - intros RT fuel pre s data. split; [apply purge_eq |].
    rewrite purge_eq. apply new_Document_on_schema.
  - intros RT construct s this H. split.
    + apply (define_fresh _ _ _ H).
    + intros name defn Hnd Hl. apply (defineFields_default _ _ _ _ _ _ Hnd Hl H).
  - intros. apply new_Document_on_rules_irrelevant.
Qed.

Lemma constructor_phases_witness :
  is_schema (TScalar "String") = false /\
  @new_Document_on simple_runtime 1 [] (TScalar "String") (VObj []) =
  Throw (JsError "Document expects schema to be an instance of Schema class") /\
  @define simple_runtime (@new_Document simple_runtime 1) (Doc person_schema [])
  = Ok blank_person /\
  NoDup (keys (schema_fields person_schema)) /\
  lookup "name" (schema_fields person_schema) = Some name_definition /\
  forall k, In k (keys (doc_props blank_person)) <-> In k ["name"; "tags"].
Proof.
  assert (Hnd : NoDup (keys (schema_fields person_schema))).
  { repeat constructor; simpl; intuition discriminate. }
  split; [reflexivity |]. split.
  - exact (proj1 constructor_phases simple_runtime 0 [] (TScalar "String") (VObj []) eq_refl).
  - split; [reflexivity |]. split; [exact Hnd |]. split; [reflexivity |].
    exact (proj1 (proj1 (proj2 (proj2 constructor_phases)) simple_runtime
                   (@new_Document simple_runtime 1) person_schema blank_person eq_refl)).
Defined.

(** C5 fails as stated: the error thrown for an argument that is not a
    Schema is a plain [Error], not a TypeError. *)
Lemma constructor_error_is_not_TypeError :
  @new_Document simple_runtime 1 (TScalar "String") (VObj []) =
  Throw (JsError "Document expects schema to be an instance of Schema class") /\
  forall msg,
    @new_Document simple_runtime 1 (TScalar "String") (VObj []) <> Throw (JsTypeError msg).
Proof. split; [reflexivity | intros msg H; discriminate H]. Qed.

(** ** Serialisation and reconstruction *)

Section AssocOrder.
Context {A : Type}.
Implicit Types (l : list (string * A)) (k : string) (a : A).

Lemma keys_app l1 l2 : keys (l1 ++ l2) = keys l1 ++ keys l2.
Proof. apply map_app. Qed.

Lemma set_entry_absent k a l : ~ In k (keys l) -> set_entry k a l = l ++ [(k, a)].
Proof.
  induction l as [| [k' a'] l IH]; simpl; intros H; [reflexivity |].
  destruct (String.eqb k k') eqn:E.
  - apply String.eqb_eq in E. exfalso. apply H. left. congruence.
  - f_equal. apply IH. tauto.
Qed.

Lemma set_entry_middle k a b l1 l2 :
  ~ In k (keys l1) -> set_entry k a (l1 ++ (k, b) :: l2) = l1 ++ (k, a) :: l2.
Proof.
  induction l1 as [| [k' a'] l1 IH]; simpl; intros H.
  - rewrite String.eqb_refl. reflexivity.
  - destruct (String.eqb k k') eqn:E.
    + apply String.eqb_eq in E. exfalso. apply H. left. congruence.
    + f_equal. apply IH. tauto.
Qed.

Lemma lookup_middle k b l1 l2 :
  ~ In k (keys l1) -> lookup k (l1 ++ (k, b) :: l2) = Some b.
Proof.
  induction l1 as [| [k' a'] l1 IH]; simpl; intros H.
  - rewrite String.eqb_refl. reflexivity.
  - destruct (String.eqb k k') eqn:E.
    + apply String.eqb_eq in E. exfalso. apply H. left. congruence.
    + apply IH. tauto.
Qed.
End AssocOrder.

Lemma foldM_app {A S : Type} (body : S -> A -> outcome S) (l1 l2 : list A) (acc : S) :
  foldM body (l1 ++ l2) acc = (acc' <- foldM body l1 acc ;; foldM body l2 acc').
Proof.
  revert acc. induction l1 as [| x l1 IH]; simpl; intros acc; [reflexivity |].
  destruct (body acc x); simpl; auto.
Qed.

Lemma NoDup_app_head {A : Type} (l1 l2 : list A) (x : A) :
  NoDup (l1 ++ x :: l2) -> ~ In x l1 /\ NoDup ((l1 ++ [x]) ++ l2).
Proof.
  intros H. split.
  - apply NoDup_remove_2 in H. intros Hin. apply H. apply in_or_app. left. exact Hin.
  - rewrite <- app_assoc. exact H.
Qed.

Section Serialise.
Context {RT : Runtime}.
Variable v2o : value -> outcome value.

(** The loop of [toObject] over distinct keys lists one entry per key. *)
Lemma toObject_loop this names entries acc :
  NoDup (keys acc ++ names) ->
  Forall2 (fun name e => fst e = name /\ v2o (read this name) = Ok (snd e)) names entries ->
  foldM (fun data name => o <- v2o (read this name) ;; Ok (set_entry name o data))
        names acc = Ok (acc ++ entries).
Proof.
  intros Hnd H. revert acc Hnd.
  induction H as [| name [k o] names entries (Hk & Ho) _ IH]; simpl; intros acc Hnd.
  - rewrite app_nil_r. reflexivity.
  - simpl in Hk, Ho. subst k. rewrite Ho. simpl.
    destruct (NoDup_app_head _ _ _ Hnd) as (Hout & Hnd').
    rewrite set_entry_absent by exact Hout.
    rewrite IH.
    + rewrite <- app_assoc. reflexivity.
    + rewrite keys_app. exact Hnd'.
Qed.

Lemma toObject_body_entries s props entries :
  NoDup (keys props) ->
  Forall2 (fun p e => fst e = fst p /\
                      v2o (read_property (Doc s props) (snd p)) = Ok (snd e))
          props entries ->
  toObject_body v2o (Doc s props) = Ok (VObj entries).
Proof.
  intros Hnd H. unfold toObject_body. cbv zeta.
  change (doc_props (Doc s props)) with props.
  rewrite (toObject_loop (Doc s props) (keys props) entries []).
  - reflexivity.
  - exact Hnd.
  - assert (Hsub : forall k p, In (k, p) props -> lookup k props = Some p).
    { clear H. intros k p. induction props as [| [k' p'] l IHl]; simpl; [contradiction |].
      inversion Hnd as [| ? ? Hout Hnd']; subst. intros [E | Hin].
      - injection E as -> ->. rewrite String.eqb_refl. reflexivity.
      - destruct (String.eqb k k') eqn:E.
        + apply String.eqb_eq in E. subst. exfalso. apply Hout.
          apply (in_map fst) in Hin. exact Hin.
        + apply IHl; assumption. }
    assert (Hgen : forall l es,
               (forall k p, In (k, p) l -> lookup k props = Some p) ->
               Forall2 (fun p e => fst e = fst p /\
                                   v2o (read_property (Doc s props) (snd p)) = Ok (snd e))
                       l es ->
               Forall2 (fun name e => fst e = name /\
                                      v2o (read (Doc s props) name) = Ok (snd e))
                       (keys l) es).
    { induction 2 as [| [k p] e l es (Hk & Ho) _ IHf]; simpl; constructor.
      - split; [exact Hk |]. unfold read. simpl.
        rewrite (H0 k p (or_introl eq_refl)). exact Ho.
      - apply IHf. intros k' p' Hin. apply H0. right. exact Hin. }
    apply Hgen; assumption.
Qed.
End Serialise.

Section Rebuild.
Context {RT : Runtime}.
Variable construct : ftype -> value -> outcome document.

(** [define] on distinct names appends one accessor per field. *)
Lemma defineFields_appends s fields :
  forall done this',
    NoDup (keys done ++ keys fields) ->
    defineFields construct (Doc s done) fields = Ok this' ->
    exists news,
      this' = Doc s (done ++ news) /\
      Forall2 (fun f p => fst p = fst f /\ exists x, snd p = PAccessor (snd f) x)
              fields news.
Proof.
  induction fields as [| [n d] fields IH]; intros done this' Hnd H.
  - injection H as <-. exists []. rewrite app_nil_r. split; [reflexivity | constructor].
  - unfold defineFields in H. simpl in H.
    apply bind_Ok_inv in H as (this1 & H1 & H).
    fold (defineFields construct this1 fields) in H.
    destruct (defineField_store _ _ _ _ _ H1) as (data & ->).
    simpl in Hnd. destruct (NoDup_app_head _ _ _ Hnd) as (Hout & Hnd').
    unfold store in H. simpl in H. rewrite set_entry_absent in H by exact Hout.
    destruct (IH (done ++ [(n, PAccessor d data)]) this') as (news & -> & Hnews).
    + rewrite keys_app. exact Hnd'.
    + exact H.
    + exists ((n, PAccessor d data) :: news). rewrite <- app_assoc. split; [reflexivity |].
      constructor; [| exact Hnews]. simpl. split; [reflexivity |]. exists data. reflexivity.
Qed.

Lemma populate_accessors s rest entries targets :
  assigned construct rest entries targets ->
  forall done,
    NoDup (keys (done ++ rest)) ->
    (forall k, In k (keys rest) -> admitted s k = true) ->
    foldM (fun this e => populateField construct this (fst e) (snd e)) entries
          (Doc s (done ++ rest)) = Ok (Doc s (done ++ targets)).
Proof.
  induction 1 as [| name defn old o x rest entries targets Hset Hcast _ IH];
    intros done Hnd Hadm.
  - reflexivity.
  - simpl. rewrite populateField_unfold. simpl.
    rewrite (Hadm name) by (left; reflexivity).
    rewrite keys_app in Hnd. simpl in Hnd.
    destruct (NoDup_app_head _ _ _ Hnd) as (Hout & Hnd').
    unfold assign. simpl. rewrite lookup_middle by exact Hout.
    rewrite setter_unfold, Hcast. simpl. unfold after_set. rewrite Hset.
    unfold store. simpl. rewrite set_entry_middle by exact Hout.
    specialize (IH (done ++ [(name, PAccessor defn x)])).
    rewrite <- !app_assoc in IH. simpl in IH. apply IH.
    + rewrite keys_app. simpl. exact Hnd.
    + intros k Hk. apply Hadm. right. exact Hk.
Qed.

Lemma populate_extras s :
  forall extras entries props,
    schema_mode s = "relaxed" ->
    Forall2 (fun e en => fst en = fst e /\ snd e = PData (snd en) /\
                         reserved (fst e) = false)
            extras entries ->
    NoDup (keys props ++ keys extras) ->
    foldM (fun this e => populateField construct this (fst e) (snd e)) entries
          (Doc s props) = Ok (Doc s (props ++ extras)).
Proof.
  intros extras entries props Hmode H. revert props.
  induction H as [| [k p] [k' v] extras entries (Hk & Hp & Hres) _ IH];
    intros props Hnd.
  - rewrite app_nil_r. reflexivity.
  - simpl in Hk, Hp, Hres. subst k' p. simpl.
    rewrite populateField_unfold. simpl. unfold admitted. rewrite Hmode. simpl.
    simpl in Hnd. destruct (NoDup_app_head _ _ _ Hnd) as (Hout & Hnd').
    unfold assign. simpl.
    rewrite (proj2 (lookup_None_not_in_keys k props) Hout). rewrite Hres.
    unfold store. simpl. rewrite set_entry_absent by exact Hout.
    rewrite IH.
    + rewrite <- app_assoc. reflexivity.
    + rewrite keys_app. exact Hnd'.
Qed.
End Rebuild.

Section RoundTrip.
Context {RT : Runtime}.

(** The caster hands a plain object at a Schema type to the [schema]
    callback, and casts an array at an array type element by element. *)
Hypothesis cast_schema :
  forall entries s h, cast (VObj entries) (TSchema s) h = h (VObj entries).
Hypothesis cast_array :
  forall items e h,
    cast (VArr items) (TArray e) h =
    (items' <- mapM (fun x => cast x e h) items ;; Ok (VArr items')).

Lemma items_round_trip (Q : value -> value -> Prop) (items : list value) :
  Forall (fun x => exists m o,
              (forall m', m <= m' -> valueToObject m' x = Ok o) /\ Q o x) items ->
  exists m os,
    (forall m', m <= m' -> mapM (valueToObject m') items = Ok os) /\
    Forall2 Q os items.
Proof.
  induction 1 as [| x items (m1 & o & Ho & Hq) _ (m2 & os & Hos & Hqs)].
  - exists 0, []. split; [reflexivity | constructor].
  - exists (Nat.max m1 m2), (o :: os). split.
    + intros m' Hm. simpl. rewrite Ho by lia. simpl. rewrite Hos by lia. reflexivity.
    + constructor; assumption.
Qed.

Lemma slot_round_trip n T :
  (forall c, stable_doc n c -> reproduced n c) ->
  forall t x,
    stable_value n T t x ->
    exists m o,
      (forall m', m <= m' -> valueToObject m' x = Ok o) /\
      normalize o = o /\
      cast o t (schema_hook (new_Document_on n []) T) = Ok x.
Proof.
  intros IHdoc. induction t as [| tag | e IHe | s]; intros x H;
    inversion H as [? ? ? ? Hdef (m & Hm) Hcast
                   | ? ? ? c Htarget Hs Hc
                   | ? ? ? items Hitems]; subst;
    try (exists m, x; split; [exact Hm |]; split;
         [destruct x; try reflexivity; contradiction | apply Hcast]).
  - (* an array of stable items *)
    assert (Hall : Forall (fun x => exists m o,
                               (forall m', m <= m' -> valueToObject m' x = Ok o) /\
                               cast o e (schema_hook (new_Document_on n []) T) = Ok x)
                          items).
    { clear H. induction Hitems as [| y items Hy _ IHl]; constructor; [| exact IHl].
      destruct (IHe y Hy) as (m & o & Hm & _ & Hcast). exists m, o. auto. }
    destruct (items_round_trip _ _ Hall) as (m & os & Hos & Hback).
    exists (S m), (VArr os). split; [| split; [reflexivity |]].
    + intros m' Hm'. destruct m' as [| m']; [lia |]. simpl.
      rewrite Hos by lia. reflexivity.
    + rewrite cast_array.
      rewrite (proj2 (mapM_Ok_Forall2 _ _ _) Hback). reflexivity.
  - (* a nested document *)
    destruct (IHdoc c Hc) as (m & entries & Hto & Hnew).
    exists (S m), (VObj entries). split; [| split; [reflexivity |]].
    + intros m' Hm'. destruct m' as [| m']; [lia |]. simpl.
      apply Hto. lia.
    + rewrite cast_schema. unfold schema_hook. fold (hook_target T).
      rewrite Htarget, Hnew. reflexivity.
Qed.

Lemma accessors_round_trip n :
  (forall c, stable_doc n c -> reproduced n c) ->
  forall fields accessors news,
    Forall2 (fun f p =>
               fst p = fst f /\
               def_get (snd f) = None /\
               def_set (snd f) = None /\
               exists x, snd p = PAccessor (snd f) x /\
                         stable_value n (def_type (snd f)) (def_type (snd f)) x)
            fields accessors ->
    Forall2 (fun f p => fst p = fst f /\ exists x, snd p = PAccessor (snd f) x)
            fields news ->
    exists m entries,
      (forall m' this,
          m <= m' ->
          Forall2 (fun p e => fst e = fst p /\
                              valueToObject m' (read_property this (snd p)) = Ok (snd e))
                  accessors entries) /\
      assigned (new_Document_on n []) news entries accessors.
Proof.
  intros IHdoc fields accessors news H. revert news.
  induction H as [| [k defn] [k' p] fields accessors (Hk & Hget & Hset & x & Hp & Hx) _ IH];
    intros news Hnews; inversion Hnews as [| ? [k0 p0] ? news' (Hk0 & x0 & Hp0) Hnews']; subst.
  - exists 0, []. split; [intros; constructor | constructor].
  - simpl in *. subst k' k0 p p0.
    destruct (IH news' Hnews') as (m2 & entries & Hto & Hassigned).
    destruct (slot_round_trip n (def_type defn) IHdoc _ _ Hx) as (m1 & o & Ho & Hnorm & Hcast).
    exists (Nat.max m1 m2), ((k, o) :: entries). split.
    + intros m' this Hm'. constructor; [| apply Hto; lia].
      simpl. split; [reflexivity |]. unfold getter. rewrite Hget. apply Ho. lia.
    + constructor; [exact Hset | | exact Hassigned].
      rewrite Hnorm. exact Hcast.
Qed.

Lemma extras_round_trip (extras : list (string * property)) :
  Forall (fun e => reserved (fst e) = false /\
                   exists v, snd e = PData v /\ inert v)
         extras ->
  exists m entries,
    (forall m' this,
        m <= m' ->
        Forall2 (fun p e => fst e = fst p /\
                            valueToObject m' (read_property this (snd p)) = Ok (snd e))
                extras entries) /\
    Forall2 (fun e en => fst en = fst e /\ snd e = PData (snd en) /\
                         reserved (fst e) = false)
            extras entries.
Proof.
  induction 1 as [| [k p] extras (Hres & v & Hp & (m1 & Hv)) _ (m2 & entries & Hto & Hrel)].
  - exists 0, []. split; [intros; constructor | constructor].
  - simpl in *. subst p. exists (Nat.max m1 m2), ((k, v) :: entries). split.
    + intros m' this Hm'. constructor; [| apply Hto; lia].
      simpl. split; [reflexivity | apply Hv; lia].
    + constructor; [| exact Hrel]. simpl. auto.
Qed.

Lemma Forall2_keys {A B : Type} (P : string * A -> string * B -> Prop)
      (l1 : list (string * A)) (l2 : list (string * B)) :
  Forall2 (fun a b => fst b = fst a /\ P a b) l1 l2 -> keys l2 = keys l1.
Proof.
  induction 1 as [| a b l1 l2 (Hk & _) _ IH]; simpl; [reflexivity |].
  rewrite Hk, IH. reflexivity.
Qed.

(** Every stable document is reproduced by the constructor from its
    own serialisation. *)
Lemma stable_reproduced n : forall d, stable_doc n d -> reproduced n d.
Proof.
  induction n as [| n IHn]; intros d H;
    inversion H as [? s accessors extras d0 Hnd Hdefine Hacc Hextras Hmode]; subst.
  assert (Hkeys_acc : keys accessors = keys (schema_fields s)).
  { apply (Forall2_keys _ _ _ Hacc). }
  unfold define in Hdefine. simpl in Hdefine.
  destruct (defineFields_appends (new_Document_on n []) s (schema_fields s) [] d0) as (news & -> & Hnews).
  { simpl. apply NoDup_app_remove_r in Hnd. exact Hnd. }
  { exact Hdefine. }
  simpl in Hdefine.
  assert (Hkeys_news : keys news = keys (schema_fields s)).
  { apply (Forall2_keys _ _ _ Hnews). }
  destruct (accessors_round_trip n IHn _ _ _ Hacc Hnews) as (m1 & eA & HtoA & Hassigned).
  destruct (extras_round_trip _ Hextras) as (m2 & eX & HtoX & HrelX).
  exists (Nat.max m1 m2), (eA ++ eX). split.
  - intros m' Hm'. unfold toObject. apply toObject_body_entries.
    + rewrite keys_app, Hkeys_acc. exact Hnd.
    + apply Forall2_app; [apply HtoA | apply HtoX]; lia.
  - intros pre. rewrite new_Document_on_schema.
    unfold define. simpl. rewrite Hdefine. simpl.
    rewrite populate_object, foldM_app.
    assert (HA : foldM (fun this e =>
                          populateField (new_Document_on n []) this (fst e) (snd e))
                       eA (Doc s news) = Ok (Doc s accessors)).
    { apply (populate_accessors (new_Document_on n []) s news eA accessors Hassigned []).
      - simpl. rewrite Hkeys_news. apply NoDup_app_remove_r in Hnd. exact Hnd.
      - intros k Hk. rewrite Hkeys_news in Hk. unfold admitted.
        rewrite (proj2 (existsb_eqb_in k _) Hk). apply orb_true_r. }
    rewrite HA. simpl. destruct Hmode as [-> | Hrelaxed].
    + inversion HrelX; subst. rewrite app_nil_r. reflexivity.
    + apply populate_extras; [exact Hrelaxed | exact HrelX |].
      rewrite Hkeys_acc. exact Hnd.
Qed.
End RoundTrip.

(** ** What the constructor builds is stable *)

Lemma peeled_inv T t : peeled T t -> T = t \/ exists T', T = TArray T' /\ peeled T' t.
Proof.
  induction 1 as [| t _ [E | (T' & E & Hp)]].
  - left. reflexivity.
  - right. exists t. split; [exact E | constructor].
  - right. exists T'. split; [exact E | apply peeled_step, Hp].
Qed.

Lemma new_Document_on_doc_schema {RT : Runtime} n pre s data d :
  new_Document_on n pre (TSchema s) data = Ok d -> doc_schema d = s.
Proof.
  destruct n as [| n]; [discriminate |]. rewrite new_Document_on_schema.
  intros H. apply bind_Ok_inv in H as (this & Hdef & H).
  destruct (define_fresh _ _ _ Hdef) as (Hs & _ & _).
  unfold populate in H. destruct (negb (isObject _)); [discriminate |].
  rewrite populate_loop_filter in H.
  destruct (assign_loop_keys _ _ _ _ H) as (Hs' & _). congruence.
Qed.

Section Aligned.
Context {RT : Runtime}.
Variable construct : ftype -> value -> outcome document.
Variable P : definition -> value -> Prop.

Lemma aligned_set_entry fields props name defn data0 c :
  aligned P fields props ->
  lookup name props = Some (PAccessor defn data0) ->
  (forall f, In f fields -> snd f = defn -> P defn c) ->
  aligned P fields (set_entry name (PAccessor defn c) props).
Proof.
  unfold aligned. induction 1 as [| f [k p] fields props (Hk & x & Hp & Hx) Hrest IH];
    simpl; intros Hl HP; [discriminate |].
  simpl in Hk, Hp. subst k p. simpl in Hl. destruct (String.eqb name (fst f)) eqn:E.
  - apply String.eqb_eq in E. subst name. injection Hl as Hd _.
    constructor; [| exact Hrest]. simpl. split; [reflexivity |].
    exists c. rewrite Hd. split; [reflexivity |].
    apply (HP f); [left; reflexivity | exact Hd].
  - constructor.
    + simpl. split; [reflexivity |]. exists x. auto.
    + apply IH; [exact Hl |]. intros f' Hin. apply HP. right. exact Hin.
Qed.

Lemma aligned_keys fields props : aligned P fields props -> keys props = keys fields.
Proof.
  induction 1 as [| f p fields props (Hk & _) _ IH]; simpl; [reflexivity |].
  rewrite Hk, IH. reflexivity.
Qed.

Lemma aligned_lookup fields props name :
  aligned P fields props ->
  In name (keys fields) ->
  exists f x, In f fields /\ lookup name props = Some (PAccessor (snd f) x).
Proof.
  induction 1 as [| f [k p] fields props (Hk & x & Hp & Hx) _ IH]; simpl; [contradiction |].
  simpl in Hk, Hp. subst k p. intros Hin.
  destruct (String.eqb name (fst f)) eqn:E.
  - exists f, x. split; [left; reflexivity | reflexivity].
  - destruct Hin as [Hin | Hin].
    + subst name. rewrite String.eqb_refl in E. discriminate.
    + destruct (IH Hin) as (f' & x' & Hf' & Hl). exists f', x'. split; [right |]; assumption.
Qed.

Variable fields : list (string * definition).
Hypothesis cast_gives_P :
  forall f v x, In f fields -> castValue construct v (snd f) = Ok x -> P (snd f) x.
Hypothesis no_set_hook : Forall (fun f => def_set (snd f) = None) fields.

Lemma assign_aligned s props name v this' :
  aligned P fields props ->
  In name (keys fields) ->
  assign construct (Doc s props) name v = Ok this' ->
  exists props', this' = Doc s props' /\ aligned P fields props'.
Proof.
  intros Hal Hin H.
  destruct (aligned_lookup _ _ _ Hal Hin) as (f & x & Hf & Hl).
  unfold assign in H. simpl in H. rewrite Hl in H. rewrite setter_unfold in H.
  apply bind_Ok_inv in H as (c & Hc & H). injection H as <-.
  unfold after_set. rewrite (proj1 (Forall_forall _ _) no_set_hook f Hf).
  eexists. split; [reflexivity |]. simpl.
  apply (aligned_set_entry _ _ _ _ x c Hal Hl).
  intros f' Hf' E. rewrite <- E. apply (cast_gives_P f' (normalize v)); [exact Hf' |].
  rewrite E. exact Hc.
Qed.

Lemma populate_aligned s entries :
  schema_mode s <> "relaxed" ->
  schema_fields s = fields ->
  forall props this',
    aligned P fields props ->
    foldM (fun this e => populateField construct this (fst e) (snd e)) entries
          (Doc s props) = Ok this' ->
    exists props', this' = Doc s props' /\ aligned P fields props'.
Proof.
  intros Hmode Hfields. apply String.eqb_neq in Hmode.
  induction entries as [| [k v] entries IH]; simpl; intros props this' Hal H.
  - injection H as <-. exists props. auto.
  - apply bind_Ok_inv in H as (this1 & H1 & H).
    rewrite populateField_unfold in H1. unfold admitted in H1. simpl in H1.
    rewrite Hmode, Hfields in H1. simpl in H1.
    destruct (existsb (String.eqb k) (keys fields)) eqn:E.
    + apply existsb_eqb_in in E.
      destruct (assign_aligned _ _ _ _ _ Hal E H1) as (props1 & -> & Hal1).
      apply (IH props1 this' Hal1 H).
    + injection H1 as <-. apply (IH props this' Hal H).
Qed.

Lemma defineFields_aligned s :
  forall todo done this',
    (forall f, In f todo -> In f fields) ->
    NoDup (keys done ++ keys todo) ->
    defineFields construct (Doc s done) todo = Ok this' ->
    exists news, this' = Doc s (done ++ news) /\ aligned P todo news.
Proof.
  induction todo as [| [n d] todo IH]; intros done this' Hsub Hnd H.
  - injection H as <-. exists []. rewrite app_nil_r. split; [reflexivity | constructor].
  - unfold defineFields in H. simpl in H.
    apply bind_Ok_inv in H as (this1 & H1 & H).
    fold (defineFields construct this1 todo) in H.
    rewrite defineField_unfold in H1. destruct (reserved n); [discriminate |].
    apply bind_Ok_inv in H1 as (c & Hc & H1). injection H1 as <-.
    assert (Hin : In (n, d) fields) by (apply Hsub; left; reflexivity).
    pose proof (proj1 (Forall_forall _ _) no_set_hook _ Hin) as Hset. simpl in Hset.
    unfold after_set in H. rewrite Hset in H.
    simpl in Hnd. destruct (NoDup_app_head _ _ _ Hnd) as (Hout & Hnd').
    unfold store in H. simpl in H. rewrite set_entry_absent in H by exact Hout.
    destruct (IH (done ++ [(n, PAccessor d c)]) this') as (news & -> & Hnews).
    + intros f Hf. apply Hsub. right. exact Hf.
    + rewrite keys_app. exact Hnd'.
    + exact H.
    + exists ((n, PAccessor d c) :: news). rewrite <- app_assoc. split; [reflexivity |].
      constructor; [| exact Hnews]. simpl. split; [reflexivity |].
      exists c. split; [reflexivity |]. apply (cast_gives_P (n, d) _ c Hin Hc).
Qed.
End Aligned.

Section Constructed.
Context {RT : Runtime}.
Hypothesis caster : lossless_caster.

Lemma null_is_stable n T t : stable_value n T t VNull.
Proof.
  apply stable_kept.
  - discriminate.
  - exists 1. intros [| m'] Hm'; [lia | reflexivity].
  - intros h. apply (cast_null caster).
Qed.

(** What the setter stores in a slot is stable, once the documents the
    [schema] callback builds are. *)
Lemma cast_output_stable n T :
  (forall pre s data d,
      regular_schema s -> new_Document_on n pre (TSchema s) data = Ok d -> stable_doc n d) ->
  forall t,
    regular_type t ->
    peeled T t ->
    forall v x,
      cast v t (schema_hook (new_Document_on n []) T) = Ok x ->
      stable_value n T t x.
Proof.
  intros IHdoc. induction t as [| tag | e IHe | s]; intros Hreg Hpeel v x H.
  - destruct (cast_scalar_result caster v TUndefined _ x eq_refl eq_refl H)
      as (Hdef & Hin & Hfix).
    apply stable_kept; assumption.
  - destruct (cast_scalar_result caster v (TScalar tag) _ x eq_refl eq_refl H)
      as (Hdef & Hin & Hfix).
    apply stable_kept; assumption.
  - destruct (cast_array_result caster _ _ _ _ H) as [-> | (vs & xs & -> & Hall)];
      [apply null_is_stable |].
    apply stable_items. inversion Hreg as [| | e' He |]; subst. clear H.
    induction Hall as [| v' x' vs xs Hx _ IHl]; [constructor |].
    constructor; [| exact IHl].
    apply (IHe He (peeled_step _ _ Hpeel) v' x' Hx).
  - destruct (cast_schema_result caster _ _ _ _ H) as [-> | Hhook];
      [apply null_is_stable |].
    unfold schema_hook in Hhook. fold (hook_target T) in Hhook.
    apply bind_Ok_inv in Hhook as (c & Hc & E). injection E as <-.
    assert (Htarget : hook_target T = TSchema s).
    { destruct (peeled_inv _ _ Hpeel) as [-> | (T' & -> & Hp')]; [reflexivity |].
      destruct (peeled_inv _ _ Hp') as [-> | (T'' & -> & _)]; [reflexivity |].
      unfold hook_target in Hc. simpl in Hc. destruct n; discriminate. }
    rewrite Htarget in Hc. inversion Hreg as [| | | s' Hs]; subst.
    apply stable_nested.
    + exact Htarget.
    + apply (new_Document_on_doc_schema _ _ _ _ _ Hc).
    + apply (IHdoc _ _ _ _ Hs Hc).
Qed.

(** Every document the constructor builds from a regular schema is
    stable, hence reproduced from its own serialisation. *)
Lemma constructed_is_stable n :
  forall pre s data d,
    regular_schema s ->
    new_Document_on n pre (TSchema s) data = Ok d ->
    stable_doc n d.
Proof.
  induction n as [| n IHn]; intros pre s data d Hreg H; [discriminate |].
  rewrite new_Document_on_schema in H. apply bind_Ok_inv in H as (d0 & Hdefine & H).
  inversion Hreg as [fields mode Hmode Hnd Hfields]; subst.
  set (s := MkSchema fields mode) in *.
  set (P := fun (defn : definition) (x : value) =>
              stable_value n (def_type defn) (def_type defn) x).
  assert (HP : forall f v x,
             In f fields ->
             castValue (new_Document_on n []) v (snd f) = Ok x -> P (snd f) x).
  { intros f v x Hin Hc. rewrite Forall_forall in Hfields.
    destruct (Hfields f Hin) as (_ & _ & Ht).
    apply (cast_output_stable n (def_type (snd f)) IHn _ Ht (peeled_refl _) v x Hc). }
  assert (Hset : Forall (fun f => def_set (snd f) = None) fields).
  { eapply Forall_impl; [| exact Hfields]. simpl. tauto. }
  unfold define in Hdefine. simpl in Hdefine.
  destruct (defineFields_aligned (new_Document_on n []) P fields HP Hset s fields [] d0)
    as (news & E & Hnews); [auto | simpl; exact Hnd | exact Hdefine |].
  simpl in E. subst d0.
  assert (Hfinal : exists props, d = Doc s props /\ aligned P fields props).
  { unfold populate in H. destruct (negb (isObject _)) eqn:Eobj; [discriminate |].
    apply (populate_aligned (new_Document_on n []) P fields HP Hset s _ Hmode eq_refl
                            news d Hnews H). }
  destruct Hfinal as (props & -> & Hal).
  rewrite <- (app_nil_r props).
  apply (stable_document n s props [] (Doc s news)).
  - simpl. rewrite app_nil_r. exact Hnd.
  - exact Hdefine.
  - clear - Hal Hfields. unfold aligned in Hal. simpl.
    induction Hal as [| f p fields props (Hk & x & Hp & Hx) _ IH]; constructor.
    + inversion Hfields as [| ? ? (Hg & Hs & _) _]; subst.
      split; [exact Hk |]. split; [exact Hg |]. split; [exact Hs |].
      exists x. split; [exact Hp | exact Hx].
    + apply IH. inversion Hfields; assumption.
  - constructor.
  - left. reflexivity.
Qed.

(** The round trip of every document built from a regular schema:
    [toObject()] resolves, the constructor rebuilds the document from
    it, and the rebuilt document serialises to the same object. *)
Lemma constructed_round_trip n s data d :
  regular_schema s ->
  new_Document n (TSchema s) data = Ok d ->
  exists m o,
    toObject m d = Ok o /\
    new_Document n (TSchema s) o = Ok d.
Proof.
  intros Hreg H.
  pose proof (constructed_is_stable n [] s data d Hreg H) as Hstable.
  destruct (stable_reproduced (cast_object caster) (cast_items caster) n d Hstable)
    as (m & entries & Hto & Hnew).
  exists m, (VObj entries). split; [apply Hto; lia |].
  rewrite <- (new_Document_on_doc_schema _ _ _ _ _ H). apply Hnew.
Qed.
End Constructed.

(** The concrete caster is lossless. *)
Lemma primitive_inert (x : value) :
  keep_primitive x = x -> @inert simple_runtime x.
Proof.
  intros H. exists 1. intros [| m'] Hm'; [lia |].
  destruct x; try discriminate; reflexivity.
Qed.

Lemma simple_caster_lossless : @lossless_caster simple_runtime.
Proof.
  constructor.
  - exact simple_cast_null.
  - reflexivity.
  - reflexivity.
  - intros v s h x H. simpl in H. destruct v; simpl in H;
      try (injection H as <-; left; reflexivity); right; exact H.
  - intros v e h x H. simpl in H.
    destruct v; simpl in H; try (injection H as <-; left; reflexivity); right;
      try (apply bind_Ok_inv in H as (x' & Hx & E); injection E as <-;
           eexists [_], [x']; split; [reflexivity |];
           constructor; [exact Hx | constructor]).
    apply bind_Ok_inv in H as (xs & Hxs & E). injection E as <-.
    exists items, xs. split; [reflexivity |]. apply mapM_Ok_Forall2. exact Hxs.
  - intros v t h x Hs Ha H.
    assert (Hx : x <> VUndefined /\ keep_primitive x = x /\
                 forall h', @cast simple_runtime x t h' = Ok x).
    { destruct t as [| tag | e | s]; try discriminate; simpl in H.
      - destruct v; simpl in H; injection H as <-;
          (split; [discriminate |]); split; reflexivity.
      - destruct v; simpl in H; try (injection H as <-;
          (split; [discriminate |]); split; reflexivity);
          destruct (String.eqb tag "Boolean") eqn:E; injection H as <-;
          (split; [discriminate |]); (split; [reflexivity |]);
          intros h'; simpl; try rewrite E; try reflexivity;
          match goal with |- context [truthy ?w] => destruct (truthy w) end;
          simpl; try rewrite E; reflexivity. }
    destruct Hx as (Hdef & Hprim & Hfix).
    split; [exact Hdef |]. split; [apply primitive_inert, Hprim | exact Hfix].
Qed.

Lemma person_schema_regular : regular_schema person_schema.
Proof.
  constructor.
  - discriminate.
  - repeat constructor; simpl; intuition discriminate.
  - repeat constructor.
Qed.

(** Whatever data a person is built from, the person survives the
    round trip through [toObject()]. *)
Lemma person_round_trip (data : value) (d : document) :
  @new_Document simple_runtime 1 (TSchema person_schema) data = Ok d ->
  exists m o,
    @toObject simple_runtime m d = Ok o /\
    @new_Document simple_runtime 1 (TSchema person_schema) o = Ok d.
Proof.
  apply (constructed_round_trip simple_caster_lossless 1 person_schema data d
                                person_schema_regular).
Qed.

(** C10, as the code has it.  Let the caster hand a plain object at a
    Schema type to the [schema] callback and cast an array at an array
    type element by element.  A document that has one accessor per field
    of its schema, in schema order and free of custom hooks (followed,
    in relaxed mode, by plain properties whose values serialise to
    themselves), and whose slots hold values the caster leaves
    unchanged, nested documents of the same kind or arrays of these,
    serialises to an object from which the constructor rebuilds the very
    same document, whose serialisation is therefore the same object. *)
Theorem toObject_round_trip {RT : Runtime}
        (cast_schema :
           forall entries s h, cast (VObj entries) (TSchema s) h = h (VObj entries))
        (cast_array :
           forall items e h,
             cast (VArr items) (TArray e) h =
             (items' <- mapM (fun x => cast x e h) items ;; Ok (VArr items')))
        (n : nat) (d : document) :
  stable_doc n d ->
  exists m o d',
    toObject m d = Ok o /\
    new_Document n (TSchema (doc_schema d)) o = Ok d' /\
    toObject m d' = Ok o /\
    d' = d.
Proof.
  intros H.
  destruct (stable_reproduced cast_schema cast_array n d H) as (m & entries & Hto & Hnew).
  exists m, (VObj entries), d. repeat split.
  - apply Hto. lia.
  - apply Hnew.
  - apply Hto. lia.
Qed.

Ltac kept_value :=
  apply stable_kept;
  [ discriminate
  | exists 1; intros [| m'] Hm'; [lia | reflexivity]
  | intros h; reflexivity ].

Lemma ann_is_stable : @stable_doc simple_runtime 1 ann.
Proof.
  apply (@stable_document simple_runtime 0 person_schema
           [("name", PAccessor name_definition (VStr "Ann"));
            ("tags", PAccessor tags_definition (VArr [VStr "x"]))]
           [] blank_person).
  - repeat constructor; simpl; intuition discriminate.
  - reflexivity.
  - apply Forall2_cons; [| apply Forall2_cons; [| apply Forall2_nil]];
      simpl; (split; [reflexivity |]); (split; [reflexivity |]); (split; [reflexivity |]);
      eexists; (split; [reflexivity |]).
    + kept_value.
    + apply stable_items. apply Forall_cons; [kept_value | apply Forall_nil].
  - constructor.
  - left. reflexivity.
Qed.

Lemma family_is_stable : @stable_doc simple_runtime 2 family.
Proof.
  apply (@stable_document simple_runtime 1 family_schema _ _
           (Doc family_schema
                [("title", PAccessor (plain_field (TScalar "String")) VNull);
                 ("head", PAccessor (plain_field (TSchema person_schema)) VNull);
                 ("members", PAccessor (plain_field (TArray (TSchema person_schema))) VNull)])).
  - repeat constructor; simpl; intuition discriminate.
  - reflexivity.
  - apply Forall2_cons; [| apply Forall2_cons; [| apply Forall2_cons; [| apply Forall2_nil]]];
      simpl; (split; [reflexivity |]); (split; [reflexivity |]); (split; [reflexivity |]);
      eexists; (split; [reflexivity |]).
    + kept_value.
    + apply stable_nested; [reflexivity | reflexivity | exact ann_is_stable].
    + apply stable_items. apply Forall_cons; [| apply Forall_cons; [| apply Forall_nil]].
      * apply stable_nested; [reflexivity | reflexivity | exact ann_is_stable].
      * kept_value.
  - apply Forall_cons; [| apply Forall_nil]. simpl. split; [reflexivity |].
    eexists. split; [reflexivity |].
    exists 1. intros [| m'] Hm'; [lia | reflexivity].
  - right. reflexivity.
Qed.

Lemma toObject_round_trip_witness :
  @stable_doc simple_runtime 2 family /\
  exists m o d',
    @toObject simple_runtime m family = Ok o /\
    @new_Document simple_runtime 2 (TSchema (doc_schema family)) o = Ok d' /\
    @toObject simple_runtime m d' = Ok o /\
    d' = family.
Proof.
  split; [exact family_is_stable |].
  apply (@toObject_round_trip simple_runtime).
  - intros entries s h. reflexivity.
  - intros items e h. reflexivity.
  - exact family_is_stable.
Defined.

(** The same round trip, computed: [family] is what the constructor
    builds from plain data, and [clone()] gives it back. *)
Lemma family_round_trip_computed :
  @new_Document simple_runtime 2 (TSchema family_schema)
    (VObj [("head", VObj [("name", VStr "Ann"); ("tags", VArr [VStr "x"])]);
           ("note", VNum 1);
           ("members", VArr [VObj [("tags", VStr "x"); ("name", VStr "Ann")]; VNull]);
           ("title", VStr "Smith")]) = Ok family /\
  @toObject simple_runtime 4 family =
  Ok (VObj [("title", VStr "Smith");
            ("head", VObj [("name", VStr "Ann"); ("tags", VArr [VStr "x"])]);
            ("members", VArr [VObj [("name", VStr "Ann"); ("tags", VArr [VStr "x"])]; VNull]);
            ("note", VNum 1)]) /\
  @clone simple_runtime 4 family = Ok family.
Proof. repeat split; reflexivity. Qed.

(** C10 fails as stated: after [purge()] a document serialises to the
    empty object, from which the constructor builds a document that has
    all the fields of the schema again. *)
Lemma round_trip_fails_after_purge :
  @new_Document simple_runtime 1 (TSchema person_schema)
                (VObj [("name", VStr "Ann"); ("tags", VArr [VStr "x"])]) = Ok ann /\
  purge ann = Doc person_schema [] /\
  @toObject simple_runtime 1 (purge ann) = Ok (VObj []) /\
  @new_Document simple_runtime 1 (TSchema (doc_schema (purge ann))) (VObj [])
  = Ok blank_person /\
  @toObject simple_runtime 1 blank_person = Ok (VObj [("name", VNull); ("tags", VNull)]) /\
  VObj [("name", VNull); ("tags", VNull)] <> VObj [].
Proof. repeat split; try reflexivity. discriminate. Qed.

(** * Further properties of the class *)

(** ** Construction, purge and define *)

Lemma entries_of_default (data : value) :
  entries_of (match data with VUndefined => VObj [] | _ => data end) = entries_of data.
Proof. destruct data; reflexivity. Qed.

Lemma assign_loop_keys_stable {RT : Runtime} construct entries :
  forall this this',
    (forall k, In k (keys entries) -> In k (keys (doc_props this))) ->
    foldM (fun this e => assign construct this (fst e) (snd e)) entries this = Ok this' ->
    keys (doc_props this') = keys (doc_props this).
Proof.
  induction entries as [| [n v] entries IH]; simpl; intros this this' Hsub H.
  - injection H as <-. reflexivity.
  - apply bind_Ok_inv in H as (this1 & H1 & H).
    destruct (assign_store _ _ _ _ _ H1) as (p & E & _).
    assert (Hk : keys (doc_props this1) = keys (doc_props this)).
    { subst this1. apply keys_set_entry_present. apply Hsub. left. reflexivity. }
    rewrite <- Hk. apply (IH this1 this'); [| exact H].
    intros k Hin. rewrite Hk. apply Hsub. right. exact Hin.
Qed.

Lemma constructed_shape {RT : Runtime} fuel pre s data d :
  new_Document_on fuel pre (TSchema s) data = Ok d ->
  doc_schema d = s /\
  (forall k, In k (keys (doc_props d)) <->
             In k (keys (schema_fields s)) \/
             (schema_mode s = "relaxed" /\ In k (keys (entries_of data)))) /\
  (schema_mode s <> "relaxed" -> NoDup (keys (schema_fields s)) ->
   keys (doc_props d) = keys (schema_fields s)).
Proof.
  intros H. split; [apply (new_Document_on_doc_schema _ _ _ _ _ H) |].
  destruct fuel as [| fuel]; [discriminate |].
  rewrite new_Document_on_schema in H. apply bind_Ok_inv in H as (this & Hdef & H).
  destruct (define_fresh _ _ _ Hdef) as (Hs & _ & Hk).
  unfold populate in H. destruct (negb (isObject _)); [discriminate |].
  rewrite entries_of_default, populate_loop_filter in H. rewrite Hs in H.
  destruct (assign_loop_keys _ _ _ _ H) as (_ & Hk').
  split.
  - intros k. rewrite Hk', Hk.
    rewrite (in_keys_filter (admitted s)). unfold admitted.
    rewrite orb_true_iff, existsb_eqb_in, String.eqb_eq. tauto.
  - intros Hmode Hnd.
    unfold define in Hdef. simpl in Hdef.
    destruct (defineFields_appends (new_Document_on fuel []) s (schema_fields s) [] this)
      as (news & -> & Hnews);
      [simpl; exact Hnd | exact Hdef |].
    simpl in *.
    assert (Hsub : forall k,
               In k (keys (filter (fun e => admitted s (fst e)) (entries_of data))) ->
               In k (keys (doc_props (Doc s news)))).
    { intros k Hin. apply Hk. apply (in_keys_filter (admitted s)) in Hin as (_ & Ha).
      unfold admitted in Ha. apply String.eqb_neq in Hmode. rewrite Hmode in Ha.
      apply existsb_eqb_in in Ha. exact Ha. }
    rewrite (assign_loop_keys_stable _ _ _ _ Hsub H).
    simpl. apply (Forall2_keys _ _ _ Hnews).
Qed.

(** X1. A constructed document carries the schema it was given; its
    keys are the field names of the schema and, in relaxed mode only,
    the keys of the data; in any other mode they are exactly the field
    names, in the order of the schema, whatever the data holds. *)
Theorem constructed_keys {RT : Runtime} (fuel : nat) (pre : list (string * property))
        (s : schema) (data : value) (d : document) :
  new_Document_on fuel pre (TSchema s) data = Ok d ->
  doc_schema d = s /\
  (forall k, In k (keys (doc_props d)) <->
             In k (keys (schema_fields s)) \/
             (schema_mode s = "relaxed" /\ In k (keys (entries_of data)))) /\
  (schema_mode s <> "relaxed" -> NoDup (keys (schema_fields s)) ->
   keys (doc_props d) = keys (schema_fields s)).
Proof. apply constructed_shape. Qed.

Lemma constructed_keys_witness :
  @new_Document_on simple_runtime 1 [("old", PData (VNum 0))] (TSchema person_schema)
                   (VObj [("zip", VNum 1); ("name", VStr "Ann")])
  = Ok (Doc person_schema [("name", PAccessor name_definition (VStr "Ann"));
                           ("tags", PAccessor tags_definition VNull)]) /\
  keys (doc_props (Doc person_schema [("name", PAccessor name_definition (VStr "Ann"));
                                      ("tags", PAccessor tags_definition VNull)]))
  = keys (schema_fields person_schema).
Proof.
  split; [reflexivity |].
  refine (proj2 (proj2 (@constructed_keys simple_runtime 1 [("old", PData (VNum 0))]
                          person_schema (VObj [("zip", VNum 1); ("name", VStr "Ann")])
                          _ eq_refl)) _ _).
  - discriminate.
  - repeat constructor; simpl; intuition discriminate.
Defined.

(** X2. The data of a constructor call are [undefined], which counts as
    the empty object, or a plain object: with anything else construction
    never succeeds, and once the defaults of the schema are installed it
    throws the Error of [populate]. *)
Theorem constructor_rejects_non_objects {RT : Runtime} (fuel : nat)
        (pre : list (string * property)) (s : schema) (data : value) :
  data <> VUndefined ->
  isObject data = false ->
  (forall d, new_Document_on fuel pre (TSchema s) data <> Ok d) /\
  (forall this,
      define (new_Document_on fuel []) (Doc s []) = Ok this ->
      new_Document_on (S fuel) pre (TSchema s) data =
      Throw (JsError "Only Object can populate a Document")) /\
  new_Document_on fuel pre (TSchema s) VUndefined =
  new_Document_on fuel pre (TSchema s) (VObj []).
Proof.
  intros Hdef Hobj.
  assert (Hpop : forall construct this,
             populate construct this data =
             Throw (JsError "Only Object can populate a Document")).
  { intros construct this. unfold populate. destruct data; try reflexivity.
    - contradiction.
    - discriminate. }
  repeat split.
  - intros d H. destruct fuel as [| fuel]; [discriminate |].
    rewrite new_Document_on_schema in H. apply bind_Ok_inv in H as (this & _ & H).
    rewrite Hpop in H. discriminate.
  - intros this H. rewrite new_Document_on_schema, H. simpl. apply Hpop.
  - destruct fuel; reflexivity.
Qed.

Lemma constructor_rejects_non_objects_witness :
  VNum 5 <> VUndefined /\
  isObject (VNum 5) = false /\
  @new_Document_on simple_runtime 1 [] (TSchema person_schema) (VNum 5) =
  Throw (JsError "Only Object can populate a Document").
Proof.
  assert (H1 : VNum 5 <> VUndefined) by discriminate.
  split; [exact H1 |]. split; [reflexivity |].
  exact (proj1 (proj2 (@constructor_rejects_non_objects simple_runtime 0 [] person_schema
                         (VNum 5) H1 eq_refl)) blank_person eq_refl).
Defined.


(** X4. [purge()] followed by [define()] depends on the schema only: two
    documents of one schema end up the same, whatever they held, and a
    successful result has the field names of the schema as its keys, all
    of them accessors. *)
Theorem define_after_purge_resets {RT : Runtime}
        (construct : ftype -> value -> outcome document) (this other : document) :
  doc_schema this = doc_schema other ->
  define construct (purge this) = define construct (purge other) /\
  forall this',
    define construct (purge this) = Ok this' ->
    accessor_invariant this' /\
    forall k, In k (keys (doc_props this')) <-> In k (keys (schema_fields (doc_schema this))).
Proof.
  intros Hs. rewrite !purge_eq. rewrite <- Hs. split; [reflexivity |].
  intros this' H. destruct (define_fresh _ _ _ H) as (_ & Hinv & Hk).
  split; assumption.
Qed.

Lemma define_after_purge_resets_witness :
  doc_schema ann = doc_schema blank_person /\
  @define simple_runtime (@new_Document simple_runtime 1) (purge ann) = Ok blank_person /\
  @define simple_runtime (@new_Document simple_runtime 1) (purge ann) =
  @define simple_runtime (@new_Document simple_runtime 1) (purge blank_person).
Proof.
  split; [reflexivity |]. split; [reflexivity |].
  exact (proj1 (@define_after_purge_resets simple_runtime (@new_Document simple_runtime 1)
                  ann blank_person eq_refl)).
Defined.

(** X5. [clone()] of a document in a mode other than [relaxed] has the
    schema of the original and exactly the fields of that schema, in
    schema order: a field the original has purged is back, a field the
    original has beyond its schema is gone. *)
Theorem clone_has_schema_fields {RT : Runtime} (fuel : nat) (this c : document) :
  clone fuel this = Ok c ->
  schema_mode (doc_schema this) <> "relaxed" ->
  NoDup (keys (schema_fields (doc_schema this))) ->
  doc_schema c = doc_schema this /\
  keys (doc_props c) = keys (schema_fields (doc_schema this)).
Proof.
  unfold clone, new_Document. intros H Hmode Hnd.
  apply bind_Ok_inv in H as (o & _ & H).
  destruct (constructed_shape _ _ _ _ _ H) as (Hs & _ & Hk).
  split; [exact Hs | apply Hk; assumption].
Qed.

Lemma clone_has_schema_fields_witness :
  @clone simple_runtime 2 (purgeField ann "name") = Ok (Doc person_schema [("name", PAccessor name_definition VNull); ("tags", PAccessor tags_definition (VArr [VStr "x"]))]) /\
  schema_mode (doc_schema (purgeField ann "name")) <> "relaxed" /\
  keys (doc_props (purgeField ann "name")) = ["tags"] /\
  (doc_schema (Doc person_schema [("name", PAccessor name_definition VNull); ("tags", PAccessor tags_definition (VArr [VStr "x"]))]) = doc_schema (purgeField ann "name") /\
   keys (doc_props (Doc person_schema [("name", PAccessor name_definition VNull); ("tags", PAccessor tags_definition (VArr [VStr "x"]))])) = keys (schema_fields (doc_schema (purgeField ann "name")))).
Proof.
  assert (Hmode : schema_mode (doc_schema (purgeField ann "name")) <> "relaxed")
    by discriminate.
  assert (Hnd : NoDup (keys (schema_fields (doc_schema (purgeField ann "name"))))).
  { repeat constructor; simpl; intuition discriminate. }
  split; [| split; [exact Hmode | split; [reflexivity |]]].
  - reflexivity.
  - exact (@clone_has_schema_fields simple_runtime 2 (purgeField ann "name") (Doc person_schema [("name", PAccessor name_definition VNull); ("tags", PAccessor tags_definition (VArr [VStr "x"]))])
             eq_refl Hmode Hnd).
Defined.

(** ** Fields and population *)



(** X7. An assignment to a field with an accessor stores what the custom
    [set] hook makes of the cast value (the cast value itself without
    hook), the hook seeing the document with the cast value already in
    the slot; the field then reads back through the custom [get] hook;
    the keys and every other property are as before. *)
Theorem assign_runs_hooks {RT : Runtime}
        (construct : ftype -> value -> outcome document)
        (this : document) (name : string) (defn : definition) (data0 v : value)
        (this' : document) :
  lookup name (doc_props this) = Some (PAccessor defn data0) ->
  assign construct this name v = Ok this' ->
  exists c,
    castValue construct (normalize v) defn = Ok c /\
    let mid := store this name (PAccessor defn c) in
    let stored := match def_set defn with Some s => apply_hook s c mid | None => c end in
    lookup name (doc_props this') = Some (PAccessor defn stored) /\
    read this' name =
    match def_get defn with Some g => apply_hook g stored this' | None => stored end /\
    keys (doc_props this') = keys (doc_props this) /\
    doc_schema this' = doc_schema this /\
    forall k, k <> name -> lookup k (doc_props this') = lookup k (doc_props this).
Proof.
  intros Hl H. unfold assign in H. rewrite Hl, setter_unfold in H.
  apply bind_Ok_inv in H as (c & Hc & H). injection H as <-.
  exists c. split; [exact Hc |]. cbv zeta. fold (after_set defn c (store this name (PAccessor defn c))).
  assert (Hl' : lookup name (doc_props (store this name
                   (PAccessor defn (after_set defn c (store this name (PAccessor defn c))))))
                = Some (PAccessor defn (after_set defn c (store this name (PAccessor defn c))))).
  { simpl. apply lookup_set_entry_same. }
  split; [exact Hl' |]. split; [| split; [| split]].
  - rewrite (read_lookup _ _ _ Hl'). reflexivity.
  - simpl. apply keys_set_entry_present. apply (lookup_Some_in_keys _ _ _ Hl).
  - reflexivity.
  - intros k Hne. simpl. apply lookup_set_entry_other. exact Hne.
Qed.

Lemma assign_runs_hooks_witness :
  lookup "label" (doc_props labelled) = Some (PAccessor label_definition VNull) /\
  @assign simple_runtime (@new_Document simple_runtime 1) labelled "label" (VStr "a")
  = Ok (Doc label_schema [("label", PAccessor label_definition (VStr "a"))]) /\
  exists c,
    @castValue simple_runtime (@new_Document simple_runtime 1) (normalize (VStr "a"))
               label_definition = Ok c /\
    @read simple_runtime (Doc label_schema [("label", PAccessor label_definition (VStr "a"))])
          "label" = VStr "fixed".
Proof.
  split; [reflexivity |]. split; [reflexivity |].
  destruct (@assign_runs_hooks simple_runtime (@new_Document simple_runtime 1) labelled
              "label" label_definition VNull (VStr "a") _ eq_refl eq_refl)
    as (c & Hc & _).
  exists c. split; [exact Hc | reflexivity].
Defined.

(** X8. Populating with the entries [e1] followed by [e2] is populating
    with [e1] and then with [e2]; populating with the empty object or
    with [undefined] changes nothing. *)
Theorem populate_composes {RT : Runtime}
        (construct : ftype -> value -> outcome document)
        (this : document) (e1 e2 : list (string * value)) :
  populate construct this (VObj (e1 ++ e2)) =
  (this1 <- populate construct this (VObj e1) ;; populate construct this1 (VObj e2)) /\
  populate construct this (VObj []) = Ok this /\
  populate construct this VUndefined = Ok this.
Proof.
  split; [| split; reflexivity].
  rewrite !populate_object, foldM_app.
  destruct (foldM _ e1 this); reflexivity.
Qed.

Lemma raw_assignments {RT : Runtime} construct s entries :
  forall acc,
    NoDup (keys acc ++ keys entries) ->
    (forall k, In k (keys entries) -> reserved k = false) ->
    foldM (fun this e => assign construct this (fst e) (snd e)) entries (Doc s acc) =
    Ok (Doc s (acc ++ map (fun e => (fst e, PData (snd e))) entries)).
Proof.
  induction entries as [| [k v] entries IH]; simpl; intros acc Hnd Hres.
  - rewrite app_nil_r. reflexivity.
  - destruct (NoDup_app_head _ _ _ Hnd) as (Hout & Hnd').
    unfold assign. simpl.
    rewrite (proj2 (lookup_None_not_in_keys k acc) Hout).
    rewrite (Hres k (or_introl eq_refl)). simpl.
    unfold store. simpl. rewrite set_entry_absent by exact Hout.
    rewrite IH.
    + rewrite <- app_assoc. reflexivity.
    + rewrite keys_app. exact Hnd'.
    + intros k' Hin. apply Hres. right. exact Hin.
Qed.

Lemma NoDup_keys_filter {A : Type} (f : string * A -> bool) (l : list (string * A)) :
  NoDup (keys l) -> NoDup (keys (filter f l)).
Proof.
  induction l as [| [k a] l IH]; simpl; intros H; [constructor |].
  inversion H as [| ? ? Hout Hnd]; subst.
  destruct (f (k, a)); simpl; [| apply IH, Hnd].
  constructor; [| apply IH, Hnd].
  intros Hin. apply Hout. unfold keys in *. apply in_map_iff in Hin as (e & E & He).
  apply filter_In in He as (He & _). apply in_map_iff. exists e. auto.
Qed.

(** X9. After [purge()] no accessor is left, so [populate] casts
    nothing: every input entry it lets through (every entry in relaxed
    mode, the entries named in [Schema.fields] otherwise) becomes a
    plain property holding the raw input value, in input order. *)
Theorem populate_after_purge_is_raw {RT : Runtime}
        (construct : ftype -> value -> outcome document)
        (this : document) (entries : list (string * value)) :
  NoDup (keys entries) ->
  (forall k, In k (keys entries) -> reserved k = false) ->
  populate construct (purge this) (VObj entries) =
  Ok (Doc (doc_schema this)
          (map (fun e => (fst e, PData (snd e)))
               (filter (fun e => admitted (doc_schema this) (fst e)) entries))).
Proof.
  intros Hnd Hres. rewrite purge_eq, populate_object, populate_loop_filter. simpl.
  rewrite raw_assignments; [reflexivity | |].
  - simpl. apply (NoDup_keys_filter (fun e => admitted (doc_schema this) (fst e))), Hnd.
  - intros k Hin. apply Hres.
    apply (in_keys_filter (admitted (doc_schema this))) in Hin as (Hin & _). exact Hin.
Qed.

Lemma populate_after_purge_is_raw_witness :
  NoDup (keys [("name", VNum 5); ("zip", VNum 1)]) /\
  @populate simple_runtime (@new_Document simple_runtime 1) (purge ann)
            (VObj [("name", VNum 5); ("zip", VNum 1)])
  = Ok (Doc person_schema [("name", PData (VNum 5))]).
Proof.
  assert (Hnd : NoDup (keys [("name", VNum 5); ("zip", VNum 1)])).
  { repeat constructor; simpl; intuition discriminate. }
  split; [exact Hnd |].
  refine (@populate_after_purge_is_raw simple_runtime (@new_Document simple_runtime 1) ann
            [("name", VNum 5); ("zip", VNum 1)] Hnd _).
  intros k [<- | [<- | []]]; reflexivity.
Defined.

(** ** Serialisation and the [schema] callback *)

Section CollectLoop.
Context {B : Type}.
Variable f : string -> outcome B.

Lemma collect_outside names : forall acc data name,
  foldM (collect f) names acc = Ok data ->
  ~ In name names ->
  lookup name data = lookup name acc.
Proof.
  induction names as [| n names IH]; simpl; intros acc data name H Hout.
  - injection H as <-. reflexivity.
  - apply bind_Ok_inv in H as (acc' & Hstep & H).
    rewrite (IH _ _ _ H) by tauto.
    unfold collect in Hstep. apply bind_Ok_inv in Hstep as (o & _ & E). injection E as <-.
    apply lookup_set_entry_other. intros ->. apply Hout. left. reflexivity.
Qed.

Lemma collect_inside names : forall acc data name,
  foldM (collect f) names acc = Ok data ->
  In name names ->
  exists o, f name = Ok o /\ lookup name data = Some o.
Proof.
  induction names as [| n names IH]; simpl; intros acc data name H Hin; [contradiction |].
  apply bind_Ok_inv in H as (acc' & Hstep & H).
  destruct (in_dec string_dec name names) as [Hlater | Hnot].
  - apply (IH _ _ _ H Hlater).
  - destruct Hin as [-> | Hin]; [| contradiction].
    unfold collect in Hstep. apply bind_Ok_inv in Hstep as (o & Ho & E). injection E as <-.
    exists o. split; [exact Ho |].
    rewrite (collect_outside _ _ _ _ H Hnot). apply lookup_set_entry_same.
Qed.

Lemma collect_keys names : forall acc data,
  foldM (collect f) names acc = Ok data ->
  NoDup (keys acc ++ names) ->
  keys data = keys acc ++ names.
Proof.
  induction names as [| n names IH]; simpl; intros acc data H Hnd.
  - injection H as <-. rewrite app_nil_r. reflexivity.
  - apply bind_Ok_inv in H as (acc' & Hstep & H).
    unfold collect in Hstep. apply bind_Ok_inv in Hstep as (o & _ & E). injection E as <-.
    destruct (NoDup_app_head _ _ _ Hnd) as (Hout & Hnd').
    rewrite (IH _ _ H).
    + rewrite keys_set_entry_absent by exact Hout. rewrite <- app_assoc. reflexivity.
    + rewrite keys_set_entry_absent by exact Hout. exact Hnd'.
Qed.

Lemma collect_all (P : B -> Prop) names : forall acc data,
  (forall name o, f name = Ok o -> P o) ->
  Forall (fun e => P (snd e)) acc ->
  foldM (collect f) names acc = Ok data ->
  Forall (fun e => P (snd e)) data.
Proof.
  induction names as [| n names IH]; simpl; intros acc data HP Hacc H.
  - injection H as <-. exact Hacc.
  - apply bind_Ok_inv in H as (acc' & Hstep & H).
    unfold collect in Hstep. apply bind_Ok_inv in Hstep as (o & Ho & E). injection E as <-.
    apply (IH _ _ HP) in H; [exact H |].
    apply Forall_set_entry; [apply (HP n o Ho) | exact Hacc].
Qed.
End CollectLoop.

Lemma toObject_body_collect {RT : Runtime} v2o this :
  toObject_body v2o this =
  (data <- foldM (collect (fun name => v2o (read this name))) (keys (doc_props this)) [] ;;
   Ok (VObj data)).
Proof. reflexivity. Qed.

(** X10. [toObject()] gives a plain object with a key for every key of
    the document and no other, bound to the serialisation of what the
    field reads as (through its custom getter, if any); distinct keys
    come in the order of the document. *)
Theorem toObject_entries {RT : Runtime} (fuel : nat) (this : document) (o : value) :
  toObject fuel this = Ok o ->
  exists data,
    o = VObj data /\
    (forall name v,
        lookup name data = Some v <->
        In name (keys (doc_props this)) /\ valueToObject fuel (read this name) = Ok v) /\
    (NoDup (keys (doc_props this)) -> keys data = keys (doc_props this)).
Proof.
  unfold toObject. rewrite toObject_body_collect. intros H.
  apply bind_Ok_inv in H as (data & Hloop & E). injection E as <-.
  exists data. split; [reflexivity |]. split.
  - intros name v. split.
    + intros Hl. destruct (in_dec string_dec name (keys (doc_props this))) as [Hin | Hout].
      * destruct (collect_inside _ _ _ _ _ Hloop Hin) as (o & Ho & Hl').
        split; [exact Hin | congruence].
      * rewrite (collect_outside _ _ _ _ _ Hloop Hout) in Hl. discriminate.
    + intros (Hin & Hv). destruct (collect_inside _ _ _ _ _ Hloop Hin) as (o & Ho & Hl').
      congruence.
  - intros Hnd. apply (collect_keys _ _ _ _ Hloop). simpl. exact Hnd.
Qed.

Lemma toObject_entries_witness :
  @toObject simple_runtime 1 labelled = Ok (VObj [("label", VStr "fixed")]) /\
  exists data,
    VObj [("label", VStr "fixed")] = VObj data /\
    (NoDup (keys (doc_props labelled)) -> keys data = keys (doc_props labelled)).
Proof.
  split; [reflexivity |].
  destruct (@toObject_entries simple_runtime 1 labelled _ eq_refl) as (data & E & _ & Hk).
  exists data. split; [exact E | exact Hk].
Defined.

Lemma valueToObject_serialised {RT : Runtime} fuel :
  forall v o, valueToObject fuel v = Ok o -> serialised o.
Proof.
  induction fuel as [| fuel IH]; intros v o H; [discriminate |].
  simpl in H. destruct v; simpl in H; try (injection H as <-; constructor).
  - apply bind_Ok_inv in H as (items' & Hitems & E). injection E as <-.
    constructor. apply mapM_Ok_Forall2 in Hitems.
    induction Hitems as [| x y l l' Hxy _ IHl]; constructor; [apply (IH _ _ Hxy) | exact IHl].
  - destruct (lookup "toObject" entries) as [m |]; [destruct (truthy m) |];
      try discriminate; injection H as <-; constructor.
  - rewrite toObject_body_collect in H. apply bind_Ok_inv in H as (data & _ & E).
    injection E as <-. constructor.
Qed.

(** X11. [toObject()] never hands a Document over as the value of a key,
    nor inside an array of such a value, at any array depth; a plain
    object among the values is handed over as it is. *)
Theorem toObject_holds_no_document {RT : Runtime} (fuel : nat) (this : document)
        (data : list (string * value)) :
  toObject fuel this = Ok (VObj data) ->
  Forall (fun e => serialised (snd e)) data /\
  forall name entries,
    In name (keys (doc_props this)) ->
    read this name = VObj entries ->
    lookup name data = Some (VObj entries).
Proof.
  unfold toObject. rewrite toObject_body_collect. intros H.
  apply bind_Ok_inv in H as (data' & Hloop & E). injection E as <-.
  split.
  - apply (collect_all _ serialised _ _ _ (fun _ => valueToObject_serialised fuel _)
                       (Forall_nil _) Hloop).
  - intros name entries Hin Hread.
    destruct (collect_inside _ _ _ _ _ Hloop Hin) as (o & Ho & Hl).
    rewrite Hl. f_equal. rewrite Hread in Ho.
    destruct fuel as [| fuel]; [discriminate |]. simpl in Ho.
    destruct (lookup "toObject" entries) as [m |]; [destruct (truthy m) |];
      try discriminate; injection Ho as <-; reflexivity.
Qed.

Lemma toObject_holds_no_document_witness :
  @toObject simple_runtime 4 family =
  Ok (VObj [("title", VStr "Smith");
            ("head", VObj [("name", VStr "Ann"); ("tags", VArr [VStr "x"])]);
            ("members", VArr [VObj [("name", VStr "Ann"); ("tags", VArr [VStr "x"])]; VNull]);
            ("note", VNum 1)]) /\
  Forall (fun e => serialised (snd e))
         [("title", VStr "Smith");
          ("head", VObj [("name", VStr "Ann"); ("tags", VArr [VStr "x"])]);
          ("members", VArr [VObj [("name", VStr "Ann"); ("tags", VArr [VStr "x"])]; VNull]);
          ("note", VNum 1)].
Proof.
  split; [reflexivity |].
  exact (proj1 (@toObject_holds_no_document simple_runtime 4 family _ eq_refl)).
Defined.

(** X12. The [schema] callback that [castValue] hands to the caster
    returns nothing but a Document of the declared schema: of the type
    itself, or of the element type of a one-level array type.  For every
    other type, a nested array type included, it throws the Error of the
    constructor. *)
Theorem schema_hook_builds_declared_schema {RT : Runtime} (fuel : nat) (T : ftype)
        (v : value) :
  (forall x,
      schema_hook (new_Document_on fuel []) T v = Ok x ->
      exists s d,
        (T = TSchema s \/ T = TArray (TSchema s)) /\ x = VDoc d /\ doc_schema d = s) /\
  ((forall s, T <> TSchema s /\ T <> TArray (TSchema s)) ->
   schema_hook (new_Document_on (S fuel) []) T v =
   Throw (JsError "Document expects schema to be an instance of Schema class")).
Proof.
  split.
  - intros x H. unfold schema_hook in H. apply bind_Ok_inv in H as (d & Hd & E).
    injection E as <-.
    assert (Hno : forall t, is_schema t = false -> new_Document_on fuel [] t v <> Ok d).
    { intros t Ht Hc. destruct fuel as [| fuel]; [discriminate |]. simpl in Hc.
      rewrite constructor_body_not_schema in Hc by exact Ht. discriminate. }
    destruct T as [| tag | e | s]; simpl in Hd;
      try (exfalso; refine (Hno _ _ Hd); reflexivity).
    + destruct e as [| tag | e' | s]; try (exfalso; refine (Hno _ _ Hd); reflexivity).
      exists s, d. split; [right; reflexivity |]. split; [reflexivity |].
      apply (new_Document_on_doc_schema _ _ _ _ _ Hd).
    + exists s, d. split; [left; reflexivity |]. split; [reflexivity |].
      apply (new_Document_on_doc_schema _ _ _ _ _ Hd).
  - intros Hnot. destruct T as [| tag | e | s]; try reflexivity.
    + destruct e as [| tag | e' | s]; try reflexivity.
      destruct (Hnot s) as (_ & H). contradiction.
    + destruct (Hnot s) as (H & _). contradiction.
Qed.

(** ** Validation *)

(** X13. For a field of an array type whose element type is no Schema
    and whose value is an array, every element is validated with the
    definition of the field, and the field result is [undefined] exactly
    when the result of some element is not: the messages of the field
    itself take no part. *)
Theorem validateField_scalar_array_result {RT : Runtime} (fuel : nat) (this : document)
        (items : list value) (d : definition) (t0 : ftype) (r : rel) :
  def_type d = TArray t0 ->
  is_schema t0 = false ->
  validateField (S fuel) this (VArr items) (Some d) = Ok r ->
  exists related,
    mapM (fun v => validateField fuel this v (Some d)) items = Ok related /\
    (r = RUndefined <-> Exists (fun e => e <> RUndefined) related) /\
    (r <> RUndefined ->
     r = RNode false (run_rules this (VArr items) (def_validations d)) (RArr related)).
Proof.
  intros Ht Hs H.
  destruct (validateField_array_of_scalars _ _ _ _ _ _ Ht Hs H) as (related & Hrel & Hiff).
  exists related. split; [exact Hrel |]. split; [exact Hiff |].
  intros Hne. simpl in H. unfold validateField_body in H. rewrite Ht in H. simpl in H.
  rewrite Hs in H. rewrite Hrel in H. simpl in H.
  apply bind_Ok_inv in H as (b & _ & H). injection H as <-.
  destruct b; [contradiction | reflexivity].
Qed.

Lemma validateField_scalar_array_result_witness :
  def_type tags_definition = TArray (TScalar "String") /\
  @validateField simple_runtime 2 blank_person (VArr [VStr "a"; VNull]) (Some tags_definition)
  = Ok RUndefined /\
  exists related,
    mapM (fun v => @validateField simple_runtime 1 blank_person v (Some tags_definition))
         [VStr "a"; VNull] = Ok related /\
    (RUndefined = RUndefined <-> Exists (fun e => e <> RUndefined) related).
Proof.
  split; [reflexivity |]. split; [reflexivity |].
  destruct (@validateField_scalar_array_result simple_runtime 1 blank_person
              [VStr "a"; VNull] tags_definition (TScalar "String") RUndefined
              eq_refl eq_refl eq_refl) as (related & Hrel & Hiff & _).
  exists related. split; [exact Hrel | exact Hiff].
Defined.

(** X14. For a field of an array type whose element type is a Schema and
    whose value is an array, the field result is never [undefined]: it
    is a node with [isValid = false] whatever the elements and whatever
    their own validation gives. *)
Theorem validateField_document_array_result {RT : Runtime} (fuel : nat) (this : document)
        (items : list value) (d : definition) (s : schema) (r : rel) :
  def_type d = TArray (TSchema s) ->
  validateField (S fuel) this (VArr items) (Some d) = Ok r ->
  exists related,
    r = RNode false (run_rules this (VArr items) (def_validations d)) (RArr related) /\
    List.length related = List.length items.
Proof.
  intros Ht H.
  pose proof (validateField_array_of_documents _ _ _ _ _ _ Ht H) as Hne.
  simpl in H. unfold validateField_body in H. rewrite Ht in H. simpl in H.
  apply bind_Ok_inv in H as (related & Hrel & H).
  apply bind_Ok_inv in Hrel as (results & Hres & E). injection E as <-.
  apply bind_Ok_inv in H as (b & _ & H). injection H as <-.
  exists results. split.
  - destruct b; [contradiction | reflexivity].
  - apply mapM_Ok_Forall2 in Hres. clear - Hres.
    induction Hres; simpl; [reflexivity | f_equal; assumption].
Qed.

Lemma validateField_document_array_result_witness :
  def_type (plain_field (TArray (TSchema empty_schema))) = TArray (TSchema empty_schema) /\
  @validateField simple_runtime 2 blank_person (VArr [VDoc (Doc empty_schema [])])
                 (Some (plain_field (TArray (TSchema empty_schema))))
  = Ok (RNode false [] (RArr [RMap []])) /\
  exists related,
    RNode false [] (RArr [RMap []]) =
    RNode false
          (@run_rules simple_runtime blank_person (VArr [VDoc (Doc empty_schema [])])
                      (def_validations (plain_field (TArray (TSchema empty_schema)))))
          (RArr related) /\
    List.length related = 1.
Proof.
  split; [reflexivity |]. split; [reflexivity |].
  exact (@validateField_document_array_result simple_runtime 1 blank_person
           [VDoc (Doc empty_schema [])] (plain_field (TArray (TSchema empty_schema)))
           empty_schema _ eq_refl eq_refl).
Defined.

(** X15. For a field of a Schema type holding a document, the field
    result is [undefined] exactly when the error map of the nested
    document is empty; otherwise it is a node holding the messages of
    the field and that error map: the messages alone never make the
    field invalid. *)
Theorem validateField_nested_result {RT : Runtime} (fuel : nat) (this c : document)
        (d : definition) (s : schema) (r : rel) :
  def_type d = TSchema s ->
  validateField (S fuel) this (VDoc c) (Some d) = Ok r ->
  exists errors,
    validate fuel c = Ok (RMap errors) /\
    (r = RUndefined <-> errors = []) /\
    (r <> RUndefined ->
     r = RNode false (run_rules this (VDoc c) (def_validations d)) (RMap errors)).
Proof.
  intros Ht H.
  destruct (validateField_nested_document _ _ _ _ _ _ Ht H) as (errors & Hv & Hiff).
  exists errors. split; [exact Hv |]. split; [exact Hiff |].
  intros Hne. simpl in H. unfold validateField_body in H. rewrite Ht in H. simpl in H.
  fold (validate fuel c) in H. rewrite Hv in H. simpl in H.
  apply bind_Ok_inv in H as (b & _ & H). injection H as <-.
  destruct b; [contradiction | reflexivity].
Qed.

Lemma validateField_nested_result_witness :
  def_type child_definition = TSchema empty_schema /\
  @validateField simple_runtime 1 parent_with_child (VDoc (Doc empty_schema []))
                 (Some child_definition) = Ok RUndefined /\
  exists errors,
    @validate simple_runtime 0 (Doc empty_schema []) = Ok (RMap errors) /\
    (RUndefined = RUndefined <-> errors = []).
Proof.
  split; [reflexivity |]. split; [reflexivity |].
  destruct (@validateField_nested_result simple_runtime 0 parent_with_child
              (Doc empty_schema []) child_definition empty_schema RUndefined
              eq_refl eq_refl) as (errors & Hv & Hiff & _).
  exists errors. split; [exact Hv | exact Hiff].
Defined.

Lemma validateField_node_messages {RT : Runtime} fuel this val defn e :
  validateField fuel this val defn = Ok e ->
  e <> RUndefined ->
  exists d related,
    defn = Some d /\ e = RNode false (run_rules this val (def_validations d)) related.
Proof.
  destruct fuel as [| fuel]; [discriminate |]. simpl. unfold validateField_body.
  destruct defn as [d |]; [| discriminate]. intros H Hne.
  apply bind_Ok_inv in H as (related & _ & H).
  apply bind_Ok_inv in H as (b & _ & H). injection H as <-.
  exists d, related. split; [reflexivity |]. destruct b; [contradiction | reflexivity].
Qed.

(** X16. Every entry of the error map [validate()] resolves to is a node
    with [isValid = false] that carries the messages the rule executor
    gave for the value the field reads as, under the rules the schema
    declares for that name. *)
Theorem validate_entries_carry_messages {RT : Runtime} (fuel : nat) (this : document)
        (errors : list (string * rel)) (name : string) (e : rel) :
  validate fuel this = Ok (RMap errors) ->
  lookup name errors = Some e ->
  exists d related,
    lookup name (schema_fields (doc_schema this)) = Some d /\
    e = RNode false (run_rules this (read this name) (def_validations d)) related.
Proof.
  unfold validate. rewrite validate_body_unfold. intros H Hl.
  apply bind_Ok_inv in H as (errors' & Hloop & E). injection E as ->.
  destruct (in_dec string_dec name (keys (doc_props this))) as [Hin | Hout].
  - destruct (validate_loop_inside _ _ _ _ _ _ Hloop Hin) as (e' & He' & Hl').
    rewrite Hl in Hl'. destruct (isUndefined_rel e') eqn:Eu; [discriminate |].
    injection Hl' as ->.
    apply (validateField_node_messages _ _ _ _ _ He'). intros ->. discriminate.
  - rewrite (validate_loop_outside _ _ _ _ _ _ Hloop Hout) in Hl. discriminate.
Qed.

Lemma validate_entries_carry_messages_witness :
  @validate simple_runtime 1 blank_person =
  Ok (RMap [("name", RNode false ["is required"] RNull);
            ("tags", RNode false ["is required"] RNull)]) /\
  exists d related,
    lookup "tags" (schema_fields (doc_schema blank_person)) = Some d /\
    RNode false ["is required"] RNull =
    RNode false (@run_rules simple_runtime blank_person
                            (@read simple_runtime blank_person "tags")
                            (def_validations d)) related.
Proof.
  split; [reflexivity |].
  exact (@validate_entries_carry_messages simple_runtime 1 blank_person _ "tags" _
           eq_refl eq_refl).
Defined.




(** X18. A document that owns a key for which the schema declares
    nothing is never validated: [validate()] does not resolve on it,
    wherever the key stands among the others. *)
Theorem validate_needs_declared_keys {RT : Runtime} (fuel : nat) (this : document)
        (name : string) :
  In name (keys (doc_props this)) ->
  lookup name (schema_fields (doc_schema this)) = None ->
  forall r, validate fuel this <> Ok r.
Proof.
  intros Hin Hnone r. apply (validate_undeclared_never_resolves _ _ _ _ Hin Hnone).
Qed.

Lemma validate_needs_declared_keys_witness :
  In "zip" (keys (doc_props (Doc person_schema
                                 [("name", PAccessor name_definition (VStr "Ann"));
                                  ("zip", PData (VNum 1))]))) /\
  forall r,
    @validate simple_runtime 2 (Doc person_schema
                                    [("name", PAccessor name_definition (VStr "Ann"));
                                     ("zip", PData (VNum 1))]) <> Ok r.
Proof.
  assert (Hin : In "zip" (keys (doc_props (Doc person_schema
                                 [("name", PAccessor name_definition (VStr "Ann"));
                                  ("zip", PData (VNum 1))])))).
  { right. left. reflexivity. }
  split; [exact Hin |].
  exact (@validate_needs_declared_keys simple_runtime 2 _ "zip" Hin eq_refl).
Defined.

(** ** Clearing *)

Lemma assoc_ext {B : Type} (l1 l2 : list (string * B)) :
  keys l1 = keys l2 ->
  NoDup (keys l1) ->
  (forall k, lookup k l1 = lookup k l2) ->
  l1 = l2.
Proof.
  revert l2. induction l1 as [| [k a] l1 IH]; intros [| [k' a'] l2] Hk Hnd Hl;
    try discriminate; [reflexivity |].
  simpl in Hk. injection Hk as <- Hk. inversion Hnd as [| ? ? Hnotin Hnd']; subst.
  pose proof (Hl k) as Hhead. simpl in Hhead. rewrite String.eqb_refl in Hhead.
  injection Hhead as <-. f_equal. apply IH; [exact Hk | exact Hnd' |].
  intros j. destruct (String.eqb j k) eqn:E.
  - apply String.eqb_eq in E. subst j.
    rewrite (proj2 (lookup_None_not_in_keys _ _) Hnotin).
    symmetry. apply lookup_None_not_in_keys. rewrite <- Hk. exact Hnotin.
  - pose proof (Hl j) as Hj. simpl in Hj. rewrite E in Hj. exact Hj.
Qed.

Lemma lookup_map_values {B C : Type} (g : B -> C) (l : list (string * B)) k :
  lookup k (map (fun e => (fst e, g (snd e))) l) = option_map g (lookup k l).
Proof.
  induction l as [| [j b] l IH]; simpl; [reflexivity |].
  destruct (String.eqb k j); [reflexivity | exact IH].
Qed.

Lemma keys_map_values {B C : Type} (g : B -> C) (l : list (string * B)) :
  keys (map (fun e => (fst e, g (snd e))) l) = keys l.
Proof.
  unfold keys. rewrite map_map. reflexivity.
Qed.

Lemma clear_prop_twice p : clear_prop (clear_prop p) = clear_prop p.
Proof. destruct p; reflexivity. Qed.

Lemma clear_result {RT : Runtime} construct this :
  (forall t h, cast VNull t h = Ok VNull) ->
  (forall name defn data,
      lookup name (doc_props this) = Some (PAccessor defn data) -> def_set defn = None) ->
  NoDup (keys (doc_props this)) ->
  clear construct this =
  Ok (Doc (doc_schema this) (map (fun e => (fst e, clear_prop (snd e))) (doc_props this))).
Proof.
  intros Hnull Hset Hnd. unfold clear.
  destruct (clear_loop construct Hnull (keys (doc_props this)) this (fun n H => H))
    as (this' & Hloop & Hs & Hkeys & Hprops).
  rewrite Hloop. f_equal. destruct this' as [s' props']. simpl in *. f_equal; [exact Hs |].
  apply assoc_ext.
  - rewrite keys_map_values. exact Hkeys.
  - rewrite Hkeys. exact Hnd.
  - intros k. rewrite lookup_map_values.
    destruct (lookup k (doc_props this)) as [p |] eqn:El.
    + destruct (Hprops k p El) as (p' & Hl' & Hin & _). rewrite Hl'. simpl. f_equal.
      specialize (Hin (lookup_Some_in_keys _ _ _ El)).
      destruct p as [defn data | v]; simpl in Hin.
      * destruct Hin as (mid & ->). unfold after_set. rewrite (Hset k defn data El). reflexivity.
      * exact Hin.
    + simpl. apply lookup_None_not_in_keys. rewrite Hkeys.
      intros Hin. apply in_keys_lookup in Hin as (p & Hp). congruence.
Qed.

(** X19. With a caster that keeps [null], on a document none of whose
    fields has a custom [set] hook, [clear()] returns the document with
    the same schema and the same keys in the same order, every stored
    value replaced by [null] and every accessor kept; clearing the
    result again changes nothing. *)
Theorem clear_nulls_every_slot {RT : Runtime} (construct : ftype -> value -> outcome document)
        (this : document) :
  (forall t h, cast VNull t h = Ok VNull) ->
  (forall name defn data,
      lookup name (doc_props this) = Some (PAccessor defn data) -> def_set defn = None) ->
  NoDup (keys (doc_props this)) ->
  exists this',
    clear construct this = Ok this' /\
    doc_schema this' = doc_schema this /\
    keys (doc_props this') = keys (doc_props this) /\
    (forall name p, lookup name (doc_props this) = Some p ->
                    lookup name (doc_props this') = Some (clear_prop p)) /\
    clear construct this' = Ok this'.
Proof.
  intros Hnull Hset Hnd.
  set (this' := Doc (doc_schema this)
                    (map (fun e => (fst e, clear_prop (snd e))) (doc_props this))).
  exists this'. split; [apply clear_result; assumption |].
  split; [reflexivity |]. split; [apply keys_map_values |]. split.
  - intros name p Hl. simpl. rewrite lookup_map_values, Hl. reflexivity.
  - rewrite clear_result; [| exact Hnull | | ].
    + unfold this'. simpl. f_equal. f_equal. rewrite map_map. apply map_ext.
      intros [k p]. simpl. rewrite clear_prop_twice. reflexivity.
    + intros name defn data. simpl. rewrite lookup_map_values.
      destruct (lookup name (doc_props this)) as [p |] eqn:El; simpl; [| discriminate].
      destruct p as [defn0 data0 | v]; simpl; [| discriminate].
      intros E. injection E as <- _. apply (Hset name defn0 data0 El).
    + simpl. rewrite keys_map_values. exact Hnd.
Qed.

Lemma clear_nulls_every_slot_witness :
  @clear simple_runtime (@new_Document_on simple_runtime 2 []) ann = Ok blank_person /\
  @clear simple_runtime (@new_Document_on simple_runtime 2 []) blank_person = Ok blank_person.
Proof.
  assert (Hnull : forall t h, @cast simple_runtime VNull t h = Ok VNull).
  { intros t h. apply simple_cast_null. }
  assert (Hset : forall name defn data,
             lookup name (doc_props ann) = Some (PAccessor defn data) -> def_set defn = None).
  { intros name defn data. simpl.
    destruct (String.eqb name "name"); [intros E; injection E as <- _; reflexivity |].
    destruct (String.eqb name "tags"); [intros E; injection E as <- _; reflexivity |].
    discriminate. }
  assert (Hnd : NoDup (keys (doc_props ann))).
  { repeat constructor; simpl; intuition discriminate. }
  destruct (@clear_nulls_every_slot simple_runtime (@new_Document_on simple_runtime 2 [])
              ann Hnull Hset Hnd) as (this' & Hc & _ & _ & _ & Hagain).
  assert (E : this' = blank_person).
  { assert (Hv : @clear simple_runtime (@new_Document_on simple_runtime 2 []) ann
                 = Ok blank_person) by reflexivity.
    rewrite Hv in Hc. injection Hc as <-. reflexivity. }
  rewrite E in Hc, Hagain. split; [exact Hc | exact Hagain].
Defined.
